(** * arbitrary-dice: the virtual die with a configurable number of faces

    A shallow embedding of the three program variants of the repository
    ([src/index.js], the Voronoi-shaded sphere, and the two ray-traced
    polyhedron files [src/unnamed/part_000] and [src/unnamed/part_001], which
    differ only in layout) together with the parts of three.js r165 they call.

    Numbers.  JavaScript numbers and GLSL floats are idealised as real
    numbers [R]: every statement below about a length, a dot product or an
    orientation is a statement about the exact arithmetic the floating-point
    code approximates.  Integer coercions ([x|0]), remainders and array
    indices are modelled exactly, over [Z] and [nat].

    Time.  [performance.now()] is an explicit argument of the operations
    that read the clock; an event handler runs to completion within one
    reading of it. *)

From Stdlib Require Import Reals Lra Lia RNsatz ZArith List String Ascii Bool DecimalString.
Import ListNotations.
Open Scope R_scope.

(** ** Vectors, quaternions, matrices *)

(** [THREE.Vector3] and the shader's [vec3]. *)
Record vec3 : Type := mkVec3 { vx : R; vy : R; vz : R }.

(** [THREE.Quaternion], fields [_x], [_y], [_z], [_w]. *)
Record quat : Type := mkQuat { qx : R; qy : R; qz : R; qw : R }.

(** [THREE.Matrix3] and the shader's [mat3]; [mRC] is row R, column C. *)
Record mat3 : Type := mkMat3 {
  m11 : R; m12 : R; m13 : R;
  m21 : R; m22 : R; m23 : R;
  m31 : R; m32 : R; m33 : R }.

Definition vec3_zero : vec3 := mkVec3 0 0 0.

(** [Number.EPSILON], 2^-52. *)
Definition EPSILON : R := / 4503599627370496.

(** ** The three.js operations the program calls (three.js r165) *)

Module Vector3.

(** [v.dot(w)]. *)
Definition dot (v w : vec3) : R := vx v * vx w + vy v * vy w + vz v * vz w.

(** [v.length()]. *)
Definition length (v : vec3) : R :=
  sqrt (vx v * vx v + vy v * vy v + vz v * vz v).

(** [v.multiplyScalar(s)]. *)
Definition multiplyScalar (v : vec3) (s : R) : vec3 :=
  mkVec3 (vx v * s) (vy v * s) (vz v * s).

(** [v.divideScalar(s)] is [v.multiplyScalar(1 / s)]. *)
Definition divideScalar (v : vec3) (s : R) : vec3 := multiplyScalar v (1 / s).

(** [v.normalize()] is [v.divideScalar(v.length() || 1)]. *)
Definition normalize (v : vec3) : vec3 :=
  divideScalar v (if Req_dec_T (length v) 0 then 1 else length v).

(** [v.applyQuaternion(q)]: v + w*t + cross(q.xyz, t), t = 2*cross(q.xyz, v). *)
Definition applyQuaternion (v : vec3) (q : quat) : vec3 :=
  let tx := 2 * (qy q * vz v - qz q * vy v) in
  let ty := 2 * (qz q * vx v - qx q * vz v) in
  let tz := 2 * (qx q * vy v - qy q * vx v) in
  mkVec3 (vx v + qw q * tx + qy q * tz - qz q * ty)
         (vy v + qw q * ty + qz q * tx - qx q * tz)
         (vz v + qw q * tz + qx q * ty - qy q * tx).

End Vector3.

Module Quaternion.

(** [new THREE.Quaternion()]. *)
Definition identity : quat := mkQuat 0 0 0 1.

Definition dot (a b : quat) : R :=
  qx a * qx b + qy a * qy b + qz a * qz b + qw a * qw b.

(** [q.length()]. *)
Definition length (q : quat) : R :=
  sqrt (qx q * qx q + qy q * qy q + qz q * qz q + qw q * qw q).

(** [q.normalize()]: the identity rotation for the zero quaternion. *)
Definition normalize (q : quat) : quat :=
  let l := length q in
  if Req_dec_T l 0 then mkQuat 0 0 0 1
  else let l' := 1 / l in mkQuat (qx q * l') (qy q * l') (qz q * l') (qw q * l').

(** [a.multiply(b)], that is [multiplyQuaternions(a, b)]. *)
Definition multiply (a b : quat) : quat :=
  mkQuat (qx a * qw b + qw a * qx b + qy a * qz b - qz a * qy b)
         (qy a * qw b + qw a * qy b + qz a * qx b - qx a * qz b)
         (qz a * qw b + qw a * qz b + qx a * qy b - qy a * qx b)
         (qw a * qw b - qx a * qx b - qy a * qy b - qz a * qz b).

(** [q.setFromUnitVectors(vFrom, vTo)]. *)
Definition setFromUnitVectors (vFrom vTo : vec3) : quat :=
  let r := Vector3.dot vFrom vTo + 1 in
  if Rlt_dec r EPSILON then
    (* vFrom and vTo point in opposite directions *)
    if Rgt_dec (Rabs (vx vFrom)) (Rabs (vz vFrom))
    then normalize (mkQuat (- vy vFrom) (vx vFrom) 0 0)
    else normalize (mkQuat 0 (- vz vFrom) (vy vFrom) 0)
  else
    normalize (mkQuat (vy vFrom * vz vTo - vz vFrom * vy vTo)
                      (vz vFrom * vx vTo - vx vFrom * vz vTo)
                      (vx vFrom * vy vTo - vy vFrom * vx vTo)
                      r).

(** [Math.atan2(y, x)]. *)
Definition atan2 (y x : R) : R :=
  if Rlt_dec 0 x then atan (y / x)
  else if Rlt_dec x 0 then (if Rle_dec 0 y then atan (y / x) + PI else atan (y / x) - PI)
  else if Rlt_dec 0 y then PI / 2
  else if Rlt_dec y 0 then - (PI / 2)
  else 0.

(** [q.slerp(qb, t)]. *)
Definition slerp (q qb : quat) (t : R) : quat :=
  if Req_dec_T t 0 then q
  else if Req_dec_T t 1 then qb
  else
    let cosHalfTheta0 := dot q qb in
    let b := if Rlt_dec cosHalfTheta0 0
             then mkQuat (- qx qb) (- qy qb) (- qz qb) (- qw qb) else qb in
    let cosHalfTheta := if Rlt_dec cosHalfTheta0 0 then - cosHalfTheta0 else cosHalfTheta0 in
    if Rge_dec cosHalfTheta 1 then q
    else
      let sqrSinHalfTheta := 1 - cosHalfTheta * cosHalfTheta in
      if Rle_dec sqrSinHalfTheta EPSILON then
        let s := 1 - t in
        normalize (mkQuat (s * qx q + t * qx b) (s * qy q + t * qy b)
                          (s * qz q + t * qz b) (s * qw q + t * qw b))
      else
        let sinHalfTheta := sqrt sqrSinHalfTheta in
        let halfTheta := atan2 sinHalfTheta cosHalfTheta in
        let ratioA := sin ((1 - t) * halfTheta) / sinHalfTheta in
        let ratioB := sin (t * halfTheta) / sinHalfTheta in
        mkQuat (qx q * ratioA + qx b * ratioB) (qy q * ratioA + qy b * ratioB)
               (qz q * ratioA + qz b * ratioB) (qw q * ratioA + qw b * ratioB).

End Quaternion.

Module Matrix3.

(** [new THREE.Matrix3()]: the identity. *)
Definition identity : mat3 := mkMat3 1 0 0 0 1 0 0 0 1.

(** [new Matrix3().setFromMatrix4(new Matrix4().makeRotationFromQuaternion(q))]:
    the upper-left 3x3 block of [compose(zero, q, one)]. *)
Definition fromQuaternion (q : quat) : mat3 :=
  let x := qx q in let y := qy q in let z := qz q in let w := qw q in
  let x2 := x + x in let y2 := y + y in let z2 := z + z in
  let xx := x * x2 in let xy := x * y2 in let xz := x * z2 in
  let yy := y * y2 in let yz := y * z2 in let zz := z * z2 in
  let wx := w * x2 in let wy := w * y2 in let wz := w * z2 in
  mkMat3 (1 - (yy + zz)) (xy - wz)        (xz + wy)
         (xy + wz)       (1 - (xx + zz))  (yz - wx)
         (xz - wy)       (yz + wx)        (1 - (xx + yy)).

End Matrix3.

(** ** GLSL built-ins used by the fragment shader *)

Module GLSL.

Definition dot := Vector3.dot.

(** [m * v]. *)
Definition mulMV (m : mat3) (v : vec3) : vec3 :=
  mkVec3 (m11 m * vx v + m12 m * vy v + m13 m * vz v)
         (m21 m * vx v + m22 m * vy v + m23 m * vz v)
         (m31 m * vx v + m32 m * vy v + m33 m * vz v).

(** [a + b * s] on vectors. *)
Definition madd (a b : vec3) (s : R) : vec3 :=
  mkVec3 (vx a + vx b * s) (vy a + vy b * s) (vz a + vz b * s).

(** [normalize(v)]: v / length(v). *)
Definition normalize (v : vec3) : vec3 :=
  mkVec3 (vx v / Vector3.length v) (vy v / Vector3.length v) (vz v / Vector3.length v).

End GLSL.

(** ** JavaScript integer coercion, loops and array slots *)

(** [x | 0] on an integer-valued number: ToInt32, the value modulo 2^32
    taken in [-2^31, 2^31). *)
Definition toInt32 (x : Z) : Z :=
  ((x + 2147483648) mod 4294967296 - 2147483648)%Z.

(** [for (let i = i0; i < i0 + k; i++) body(i)], where the body may throw. *)
Fixpoint forLoop {S : Type} (body : nat -> S -> option S) (i k : nat) (s : S)
  : option S :=
  match k with
  | O => Some s
  | Datatypes.S k' =>
      match body i s with
      | Some s' => forLoop body (Datatypes.S i) k' s'
      | None => None
      end
  end.

(** [a[i].set(x, y, z)] and [a[i].copy(v)]: overwrite slot [i] in place; a
    missing slot is [undefined] and the method call throws a TypeError. *)
Definition setAt (a : list vec3) (i : nat) (v : vec3) : option (list vec3) :=
  match nth_error a i with
  | Some _ => Some (firstn i a ++ v :: skipn (Datatypes.S i) a)
  | None => None
  end.

(** The two loops of [setSeeds] over the uniform array:
    [for (i < MAX_SEEDS) seeds[i].set(1,0,0); for (i < n) seeds[i].copy(pts[i])]. *)
Definition storeSeeds (cap n : nat) (pts a : list vec3) : option (list vec3) :=
  match forLoop (fun i a => setAt a i (mkVec3 1 0 0)) 0 cap a with
  | Some a1 =>
      forLoop (fun i a =>
                 match nth_error pts i with
                 | Some p => setAt a i p
                 | None => None
                 end) 0 n a1
  | None => None
  end.

(** [Math.max(3, Math.min(MAX_SEEDS, n|0))]. *)
Definition clampCount (cap n : Z) : Z := Z.max 3 (Z.min cap (toInt32 n)).

(** [((idx|0) % len + len) % len]; JavaScript's [%] truncates toward zero. *)
Definition wrapIndex (idx len : Z) : Z :=
  Z.rem (Z.rem (toInt32 idx) len + len) len.

(** The template literal [`Result: ${k} / d${n}`]. *)
Definition decimal (z : Z) : string := DecimalString.NilZero.string_of_int (Z.to_int z).

Definition resultText (k n : Z) : string :=
  ("Result: " ++ decimal k ++ " / d" ++ decimal n)%string.

(** ** Seeds (Fibonacci lattice): identical in the three files *)

Definition GOLDEN_ANGLE : R := PI * (3 - sqrt 5).

(** The body of the loop of [fibonacciSeeds] at index [i]. *)
Definition fibonacciSeed (n : Z) (i : nat) : vec3 :=
  let t := (INR i + 0.5) / IZR n in
  let z := 1.0 - 2.0 * t in
  let r := sqrt (Rmax 0.0 (1.0 - z * z)) in
  let phi := INR i * GOLDEN_ANGLE in
  Vector3.normalize (mkVec3 (cos phi * r) z (sin phi * r)).

(** [fibonacciSeeds(n)]: [out.push] for i = 0, 1, ... while [i < n]. *)
Definition fibonacciSeeds (n : Z) : list vec3 :=
  map (fibonacciSeed n) (seq 0 (Z.to_nat n)).

(** ** The ray-traced polyhedron ([src/unnamed/part_001], [src/unnamed/part_000]) *)

Module Poly.

Definition MAX_SEEDS : Z := 128.
Definition DURATION_MS : R := 900.
Definition POLY_OFFSET : R := 0.9.

(** [anim = { startQ, endQ, startTime, dur }]. *)
Record Anim : Type := mkAnim {
  startQ : quat; endQ : quat; startTime : R; dur : R }.

(** The mutable state of the page: the shader uniforms [seeds], [count],
    [offset] and [rot], [quad.userData.seedDirs] ([None] while it is
    undefined), the module variables [rotQ] and [anim] ([None] for
    [null]) and [result.textContent]. *)
Record State : Type := mkState {
  seeds : list vec3;
  count : Z;
  offset : R;
  rot : mat3;
  seedDirs : option (list vec3);
  rotQ : quat;
  anim : option Anim;
  result : string }.

(** The state the module builds before [setSeeds] first runs; [text] is
    what the page shows in the result element. *)
Definition init (text : string) : State :=
  mkState (repeat (mkVec3 1 0 0) (Z.to_nat MAX_SEEDS)) 0 POLY_OFFSET
          Matrix3.identity None Quaternion.identity None text.

(** *** The fragment shader's intersector *)

(** [struct Hit { bool ok; float t; int faceIdx; vec3 normal; vec3 pos; }]. *)
Record Hit : Type := mkHit {
  ok : bool; t : R; faceIdx : Z; normal : vec3; pos : vec3 }.

(** [Hit(false, 0.0, -1, vec3(0.0), vec3(0.0))]. *)
Definition noHit : Hit := mkHit false 0.0 (-1) vec3_zero vec3_zero.

Section Intersector.

Variable u : State.
Variables ro rd : vec3.

(** [seeds[i]] of the uniform array. *)
Definition seedAt (i : nat) : vec3 := nth i (seeds u) vec3_zero.

(** The code after the loop of [intersectPoly]. *)
Definition finish (tNear tFar : R) (enterIdx : Z) : Hit :=
  if orb (enterIdx <? 0)%Z (if Rlt_dec tFar 0.0 then true else false)
  then noHit
  else
    let tHit := Rmax tNear 0.0 in
    let p := GLSL.madd ro rd tHit in
    let nHit := GLSL.normalize (GLSL.mulMV (rot u) (seedAt (Z.to_nat enterIdx))) in
    mkHit true tHit enterIdx nHit p.

(** The loop [for (int i = 0; i < MAX_SEEDS; ++i)] of [intersectPoly],
    from index [i] with [fuel] iterations left before [i] reaches
    [MAX_SEEDS]. *)
Fixpoint intersectLoop (fuel i : nat) (tNear tFar : R) (enterIdx : Z) : Hit :=
  match fuel with
  | O => finish tNear tFar enterIdx
  | S fuel' =>
      if (Z.of_nat i >=? count u)%Z then finish tNear tFar enterIdx  (* break *)
      else
        let n := GLSL.mulMV (rot u) (seedAt i) in
        let denom := GLSL.dot n rd in
        let num := offset u - GLSL.dot n ro in
        if Rlt_dec (Rabs denom) 1e-6 then
          if Rlt_dec num 0.0 then noHit                       (* outside, parallel *)
          else intersectLoop fuel' (S i) tNear tFar enterIdx  (* continue *)
        else
          let t := num / denom in
          let '(tNear', tFar', enterIdx') :=
            if Rlt_dec denom 0.0 then
              (* entering through plane i *)
              if Rgt_dec t tNear then (t, tFar, Z.of_nat i)
              else (tNear, tFar, enterIdx)
            else
              (* exiting through plane i *)
              if Rlt_dec t tFar then (tNear, t, enterIdx)
              else (tNear, tFar, enterIdx) in
          if Rgt_dec tNear' tFar' then noHit
          else intersectLoop fuel' (S i) tNear' tFar' enterIdx'
  end.

(** [Hit intersectPoly(vec3 ro, vec3 rd)]. *)
Definition intersectPoly : Hit :=
  intersectLoop (Z.to_nat MAX_SEEDS) 0 0.0 1e9 (-1).

End Intersector.

(** *** Seeds *)

(** [setSeeds(n)]; [None] when a slot of the uniform array is missing. *)
Definition setSeeds (n : Z) (st : State) : option State :=
  let n := clampCount MAX_SEEDS n in
  let pts := fibonacciSeeds n in
  match storeSeeds (Z.to_nat MAX_SEEDS) (Z.to_nat n) pts (seeds st) with
  | Some a =>
      Some (mkState a n (offset st) (rot st) (Some pts)
                    (rotQ st) (anim st) (result st))
  | None => None
  end.

(** *** Roll animation *)

Definition zWorld : vec3 := mkVec3 0 0 1.

(** [rollTo(idx)], called when [performance.now()] is [now]. *)
Definition rollTo (idx : Z) (now : R) (st : State) : State :=
  match seedDirs st with
  | None => st
  | Some dirs =>
      if (List.length dirs =? 0)%nat then st
      else
        let len := Z.of_nat (List.length dirs) in
        let idx := wrapIndex idx len in
        let nWorld :=
          Vector3.normalize
            (Vector3.applyQuaternion (nth (Z.to_nat idx) dirs vec3_zero) (rotQ st)) in
        let delta := Quaternion.setFromUnitVectors nWorld zWorld in
        let startQ := rotQ st in
        let endQ := Quaternion.multiply delta startQ in
        mkState (seeds st) (count st) (offset st) (rot st) (seedDirs st)
                (rotQ st)
                (Some (mkAnim startQ endQ now DURATION_MS))
                (resultText (idx + 1) len)
  end.

(** [applyRotationUniform()]. *)
Definition applyRotationUniform (st : State) : State :=
  mkState (seeds st) (count st) (offset st) (Matrix3.fromQuaternion (rotQ st))
          (seedDirs st) (rotQ st) (anim st) (result st).

(** The state part of [render()], called when [performance.now()] is
    [now]: one step of the animation. *)
Definition render (now : R) (st : State) : State :=
  match anim st with
  | None => st
  | Some a =>
      let t := Rmin 1 ((now - startTime a) / dur a) in
      let tt := 1 - (1 - t) ^ 3 in
      let st1 :=
        mkState (seeds st) (count st) (offset st) (rot st) (seedDirs st)
                (Quaternion.slerp (startQ a) (endQ a) tt) (anim st) (result st) in
      let st2 := applyRotationUniform st1 in
      if Rge_dec t 1
      then mkState (seeds st2) (count st2) (offset st2) (rot st2) (seedDirs st2)
                   (rotQ st2) None (result st2)
      else st2
  end.

(** Frames at the successive times [ts]. *)
Definition renders (ts : list R) (st : State) : State :=
  fold_left (fun s now => render now s) ts st.

(** The boot sequence [setSeeds(n); applyRotationUniform()], with [n]
    the face count read from the page. *)
Definition boot (n : Z) (text : string) : option State :=
  option_map applyRotationUniform (setSeeds n (init text)).

End Poly.

(** ** The Voronoi-shaded sphere ([src/index.js]) *)

Module Sphere.

Definition MAX_SEEDS : Z := 256.
Definition DURATION_MS : R := 1000.

(** What a [tick] closure captured from its call of [rollTo]. *)
Record Tick : Type := mkTick { start : quat; end_ : quat; startTime : R }.

(** The mutable state of the page: the uniforms [seeds] and [count],
    [sphere.userData.seedDirs], [sphere.quaternion], the module variable
    [anim] ([None] for [null], [Some id] for [{ rafId: id }]), the
    callbacks the browser holds for the next animation frame with their
    handles, the next handle it will hand out, the pending [setTimeout]
    callbacks (the time from which each may fire and the text it writes)
    and [result.textContent]. *)
Record State : Type := mkState {
  seeds : list vec3;
  count : Z;
  seedDirs : option (list vec3);
  quaternion : quat;
  anim : option Z;
  frames : list (Z * Tick);
  nextHandle : Z;
  timers : list (R * string);
  result : string }.

Definition init (text : string) : State :=
  mkState (repeat (mkVec3 1 0 0) (Z.to_nat MAX_SEEDS)) 0 None
          Quaternion.identity None [] 1 [] text.

(** [setSeeds(n)]. *)
Definition setSeeds (n : Z) (st : State) : option State :=
  let n := clampCount MAX_SEEDS n in
  let pts := fibonacciSeeds n in
  match storeSeeds (Z.to_nat MAX_SEEDS) (Z.to_nat n) pts (seeds st) with
  | Some a =>
      Some (mkState a n (Some pts) (quaternion st) (anim st) (frames st)
                    (nextHandle st) (timers st) (result st))
  | None => None
  end.

(** [cancelAnimationFrame(anim?.rafId)]. *)
Definition cancelAnimationFrame (h : option Z) (fs : list (Z * Tick))
  : list (Z * Tick) :=
  match h with
  | None => fs
  | Some id => filter (fun f => negb (fst f =? id)%Z) fs
  end.

Definition easeOutCubic (t : R) : R := 1 - (1 - t) ^ 3.

(** One run of the closure [tick] when [performance.now()] is [now]. *)
Definition tick (k : Tick) (now : R) (st : State) : State :=
  let t := Rmin 1 ((now - startTime k) / DURATION_MS) in
  let t := easeOutCubic t in
  let q := Quaternion.slerp (start k) (end_ k) t in
  if Rlt_dec t 1 then
    (* anim.rafId = requestAnimationFrame(tick) *)
    mkState (seeds st) (count st) (seedDirs st) q
            (Some (nextHandle st))
            (frames st ++ [(nextHandle st, k)])
            (nextHandle st + 1)%Z (timers st) (result st)
  else
    mkState (seeds st) (count st) (seedDirs st) q
            (anim st) (frames st) (nextHandle st) (timers st) (result st).

(** [rollTo(idx)], run when the clock reads [now]: the handler runs to
    completion within one reading of the clock, so [startTime], the first
    [tick()] and the [setTimeout] call all see [now]. *)
Definition rollTo (idx : Z) (now : R) (st : State) : State :=
  match seedDirs st with
  | None => st
  | Some dirs =>
      if (List.length dirs =? 0)%nat then st
      else
        let len := Z.of_nat (List.length dirs) in
        let idx := wrapIndex idx len in
        let targetDir := nth (Z.to_nat idx) dirs vec3_zero in
        let worldDir :=
          Vector3.normalize (Vector3.applyQuaternion targetDir (quaternion st)) in
        let z := mkVec3 0 0 1 in
        let delta := Quaternion.setFromUnitVectors worldDir z in
        let start := quaternion st in
        let end_ := Quaternion.multiply delta start in
        let st1 :=
          mkState (seeds st) (count st) (seedDirs st) (quaternion st)
                  (Some 0%Z)
                  (cancelAnimationFrame (anim st) (frames st))
                  (nextHandle st) (timers st) (result st) in
        let st2 := tick (mkTick start end_ now) now st1 in
        mkState (seeds st2) (count st2) (seedDirs st2) (quaternion st2)
                (anim st2) (frames st2) (nextHandle st2)
                (timers st2 ++ [(now + DURATION_MS * 0.9, resultText (idx + 1) len)])
                (result st2)
  end.

(** An animation frame at time [now]: the browser runs the callbacks it
    holds, in order, and holds the ones they request for the next frame. *)
Definition runFrame (now : R) (st : State) : State :=
  fold_left (fun s f => tick (snd f) now s) (frames st)
            (mkState (seeds st) (count st) (seedDirs st) (quaternion st)
                     (anim st) [] (nextHandle st) (timers st) (result st)).

(** The timer task at time [now]: every pending timeout that is due runs,
    oldest first, and writes its text. *)
Definition runTimers (now : R) (st : State) : State :=
  let due := filter (fun tm => if Rle_dec (fst tm) now then true else false) (timers st) in
  let rest := filter (fun tm => if Rle_dec (fst tm) now then false else true) (timers st) in
  mkState (seeds st) (count st) (seedDirs st) (quaternion st) (anim st)
          (frames st) (nextHandle st) rest
          (fold_left (fun _ tm => snd tm) due (result st)).

End Sphere.

(** ** The slab-clipping algorithm as the specification words it

    The algorithm of the specification's intersector contract: the faces are
    given by their normals [n_i] in the frame of the ray, [tFar] is a real
    number or +infinity and [enterFace] is a face index or unset. *)

Module SlabSpec.

(** A distance along the ray, or +infinity. *)
Inductive ext : Type := Fin (x : R) | PInf.

(** [x < e]. *)
Definition lt_ext (x : R) (e : ext) : bool :=
  match e with
  | Fin y => if Rlt_dec x y then true else false
  | PInf => true
  end.

(** [e < x]. *)
Definition ext_lt (e : ext) (x : R) : bool :=
  match e with
  | Fin y => if Rlt_dec y x then true else false
  | PInf => false
  end.

(** What the algorithm maintains. *)
Record Interval : Type := mkInterval {
  tNear : R; tFar : ext; enterFace : option nat }.

Inductive Outcome : Type :=
| NoHit
| HitAt (distance : R) (face : nat) (surfaceNormal point : vec3).

Section Algorithm.

Variable tFar0 : ext.        (* the initial [tFar] *)
Variable epsilon : R.        (* the small epsilon *)
Variable offset : R.
Variable normals : list vec3. (* [n_i] for the active faces, in order *)
Variables rayOrigin rayDir : vec3.

(** One face; [None] is "terminate with no hit". *)
Definition face (i : nat) (n_i : vec3) (s : Interval) : option Interval :=
  let denom := Vector3.dot n_i rayDir in
  let num := offset - Vector3.dot n_i rayOrigin in
  if Rlt_dec (Rabs denom) epsilon then
    if Rlt_dec num 0 then None else Some s
  else
    let t := num / denom in
    let s' :=
      if Rlt_dec denom 0 then
        if Rlt_dec (tNear s) t then mkInterval t (tFar s) (Some i) else s
      else if Rlt_dec 0 denom then
        if lt_ext t (tFar s) then mkInterval (tNear s) (Fin t) (enterFace s) else s
      else s in
    if ext_lt (tFar s') (tNear s') then None else Some s'.

(** The faces from index [i] on. *)
Fixpoint faces (i : nat) (ns : list vec3) (s : Interval) : option Interval :=
  match ns with
  | [] => Some s
  | n_i :: ns' =>
      match face i n_i s with
      | Some s' => faces (S i) ns' s'
      | None => None
      end
  end.

Definition slab : Outcome :=
  match faces 0 normals (mkInterval 0 tFar0 None) with
  | None => NoHit
  | Some s =>
      match enterFace s with
      | None => NoHit
      | Some e =>
          if ext_lt (tFar s) 0 then NoHit
          else
            let hitDistance := Rmax (tNear s) 0 in
            HitAt hitDistance e (nth e normals vec3_zero)
                  (GLSL.madd rayOrigin rayDir hitDistance)
      end
  end.

End Algorithm.

End SlabSpec.

(** ** Vocabulary of the statements *)

(** The result of the shader's intersector read as an outcome of the
    algorithm: [ok = false] is "no hit". *)
Definition outcome (h : Poly.Hit) : SlabSpec.Outcome :=
  if Poly.ok h
  then SlabSpec.HitAt (Poly.t h) (Z.to_nat (Poly.faceIdx h)) (Poly.normal h) (Poly.pos h)
  else SlabSpec.NoHit.

(** The normals [n_i = rot * seeds[i]] of the active faces of a state. *)
Definition activeNormals (u : Poly.State) : list vec3 :=
  map (GLSL.mulMV (Poly.rot u)) (firstn (Z.to_nat (Poly.count u)) (Poly.seeds u)).

(** The height [z = 1 - 2t], [t = (i + 0.5)/n], of the i-th lattice point. *)
Definition latticeZ (n : Z) (i : nat) : R := 1 - 2 * ((INR i + 0.5) / IZR n).

(** The i-th lattice direction as the specification words it: the
    normalization [v / |v|] of [(cos(phi)*r, z, sin(phi)*r)]. *)
Definition specSeed (n : Z) (i : nat) : vec3 :=
  let t := (INR i + 0.5) / IZR n in
  let z := 1 - 2 * t in
  let r := sqrt (Rmax 0 (1 - z * z)) in
  let phi := INR i * (PI * (3 - sqrt 5)) in
  GLSL.normalize (mkVec3 (cos phi * r) z (sin phi * r)).

(** Unit quaternions and unit vectors. *)
Definition unitQ (q : quat) : Prop := Quaternion.dot q q = 1.
Definition unitV (v : vec3) : Prop := Vector3.dot v v = 1.

(** Squared distance of two vectors. *)
Definition dist2 (a b : vec3) : R :=
  (vx a - vx b) * (vx a - vx b) + (vy a - vy b) * (vy a - vy b)
  + (vz a - vz b) * (vz a - vz b).

(** The seed direction [dirs[idx]] that [rollTo(idx)] aims at, [idx]
    being wrapped first. *)
Definition targetDir (idx : Z) (dirs : list vec3) : vec3 :=
  nth (Z.to_nat (wrapIndex idx (Z.of_nat (List.length dirs)))) dirs vec3_zero.

(** The invariant of the polyhedron state and of its animation state (data
    model of the specification): the uniform array has its capacity, the
    count is within bounds, the stored directions are the active seeds and
    have unit length, the orientation is a unit quaternion and the [rot]
    uniform is its matrix, and a running animation goes between unit
    orientations for the fixed duration. *)
Definition polyhedronState (st : Poly.State) : Prop :=
  List.length (Poly.seeds st) = Z.to_nat Poly.MAX_SEEDS
  /\ (3 <= Poly.count st <= Poly.MAX_SEEDS)%Z
  /\ Poly.seedDirs st = Some (firstn (Z.to_nat (Poly.count st)) (Poly.seeds st))
  /\ Forall (fun v => Vector3.length v = 1)
            (firstn (Z.to_nat (Poly.count st)) (Poly.seeds st))
  /\ Poly.offset st = Poly.POLY_OFFSET
  /\ unitQ (Poly.rotQ st)
  /\ Poly.rot st = Matrix3.fromQuaternion (Poly.rotQ st)
  /\ (forall a, Poly.anim st = Some a ->
                unitQ (Poly.startQ a) /\ unitQ (Poly.endQ a)
                /\ Poly.dur a = Poly.DURATION_MS).

(** The states the polyhedron page can be in: after the boot sequence, and
    from there after any reseed, roll request or frame. *)
Inductive reachable : Poly.State -> Prop :=
| reach_boot n text st : Poly.boot n text = Some st -> reachable st
| reach_setSeeds n st st' :
    reachable st -> Poly.setSeeds n st = Some st' -> reachable st'
| reach_rollTo idx now st : reachable st -> reachable (Poly.rollTo idx now st)
| reach_render now st : reachable st -> reachable (Poly.render now st).

(** What [setSeeds(n)] leaves in a variant with capacity [cap]: the
    uniform array, the count and the stored direction list. *)
Definition seedsStored (cap n : Z) (seeds : list vec3) (count : Z)
           (dirs : option (list vec3)) : Prop :=
  count = Z.max 3 (Z.min cap (toInt32 n))
  /\ ((-2147483648 <= n < 2147483648)%Z -> count = Z.max 3 (Z.min cap n))
  /\ (n = 2%Z -> count = 3%Z)
  /\ (n = 1000%Z -> count = cap)
  /\ (3 <= count <= cap)%Z
  /\ List.length seeds = Z.to_nat cap
  /\ firstn (Z.to_nat count) seeds = fibonacciSeeds count
  /\ Forall (fun v => Vector3.length v = 1) (firstn (Z.to_nat count) seeds)
  /\ dirs = Some (fibonacciSeeds count).

(** The state with the animation dropped. *)
Definition withoutAnim (st : Poly.State) : Poly.State :=
  Poly.mkState (Poly.seeds st) (Poly.count st) (Poly.offset st) (Poly.rot st)
               (Poly.seedDirs st) (Poly.rotQ st) None (Poly.result st).

(** Animation frames of the sphere page at the successive times [ts]. *)
Definition runFrames (ts : list R) (st : Sphere.State) : Sphere.State :=
  fold_left (fun s now => Sphere.runFrame now s) ts st.

(** [p] satisfies every half-space of the state. *)
Definition inside (u : Poly.State) (p : vec3) : Prop :=
  forall i, GLSL.dot (GLSL.mulMV (Poly.rot u) (Poly.seedAt u i)) p <= Poly.offset u.

(** *** Concrete states *)

(** The polyhedron page once booted with thirteen faces. *)
Definition d13 : Poly.State :=
  Poly.mkState (fibonacciSeeds 13 ++ repeat (mkVec3 1 0 0) 115) 13 Poly.POLY_OFFSET
               (Matrix3.fromQuaternion Quaternion.identity)
               (Some (fibonacciSeeds 13)) Quaternion.identity None "".

(** Three faces along the axes, the first toward the viewer. *)
Definition tripod : list vec3 := [mkVec3 0 0 1; mkVec3 1 0 0; mkVec3 0 1 0].

Definition tripodState : Poly.State :=
  Poly.mkState (tripod ++ repeat (mkVec3 1 0 0) 125) 3 Poly.POLY_OFFSET
               (Matrix3.fromQuaternion Quaternion.identity)
               (Some tripod) Quaternion.identity None "".

(** The sphere page once [setSeeds(37)], its default count, has run. *)
Definition s37 : Sphere.State :=
  Sphere.mkState (fibonacciSeeds 37 ++ repeat (mkVec3 1 0 0) 219) 37
                 (Some (fibonacciSeeds 37)) Quaternion.identity None [] 1 [] "".

(** *** Bookkeeping of the refinement proof of the intersector *)

(** The normals of the faces the loop has not visited yet. *)
Definition remaining (u : Poly.State) (i : nat) : list vec3 :=
  map (GLSL.mulMV (Poly.rot u))
      (firstn (Z.to_nat (Poly.count u) - i) (skipn i (Poly.seeds u))).

(** [enterIdx], with [-1] for "unset", as an optional face. *)
Definition encode (e : Z) : option nat :=
  if (e <? 0)%Z then None else Some (Z.to_nat e).

(** What the algorithm reports once the faces are processed. *)
Definition close (u : Poly.State) (ro rd : vec3) (o : option SlabSpec.Interval)
  : SlabSpec.Outcome :=
  match o with
  | None => SlabSpec.NoHit
  | Some s =>
      match SlabSpec.enterFace s with
      | None => SlabSpec.NoHit
      | Some e =>
          if SlabSpec.ext_lt (SlabSpec.tFar s) 0 then SlabSpec.NoHit
          else SlabSpec.HitAt (Rmax (SlabSpec.tNear s) 0) e
                 (nth e (activeNormals u) vec3_zero)
                 (GLSL.madd ro rd (Rmax (SlabSpec.tNear s) 0))
      end
  end.

Definition unitNormals (u : Poly.State) : Prop :=
  forall i, (Z.of_nat i < Poly.count u)%Z ->
            Vector3.length (GLSL.mulMV (Poly.rot u) (Poly.seedAt u i)) = 1.

(** [enterIdx] is unset or an active face. *)
Definition entered (u : Poly.State) (e : Z) : Prop :=
  e = (-1)%Z
  \/ (0 <= e < Poly.count u)%Z /\ (Z.to_nat e < List.length (Poly.seeds u))%nat.

(** The run started from [tFar = B] mirrors the run started from
    +infinity as long as no distance beyond [B] is met. *)
Definition mirrors (B : R) (c s : SlabSpec.Interval) : Prop :=
  SlabSpec.tNear c = SlabSpec.tNear s
  /\ SlabSpec.enterFace c = SlabSpec.enterFace s
  /\ SlabSpec.tNear s <= B
  /\ ((SlabSpec.tFar s = SlabSpec.PInf /\ SlabSpec.tFar c = SlabSpec.Fin B)
      \/ (exists x, SlabSpec.tFar s = SlabSpec.Fin x /\ SlabSpec.tFar c = SlabSpec.Fin x)).

(** Face [n] is parallel to the ray or met at a distance of at most [B]. *)
Definition withinSentinel (B epsilon offset : R) (ro rd n : vec3) : Prop :=
  ~ Rabs (Vector3.dot n rd) < epsilon ->
  (offset - Vector3.dot n ro) / Vector3.dot n rd <= B.

(** * Properties *)

(** ** Vectors and lengths *)

Lemma vec3_eq (a b : vec3) :
  vx a = vx b -> vy a = vy b -> vz a = vz b -> a = b.
Proof. destruct a, b; simpl; intros; subst; reflexivity. Qed.

Lemma length_unit_iff v :
  Vector3.length v = 1 <-> vx v * vx v + vy v * vy v + vz v * vz v = 1.
Proof.
  unfold Vector3.length. split; intros H.
  - rewrite <- (sqrt_sqrt (vx v * vx v + vy v * vy v + vz v * vz v)) by nra.
    rewrite H. ring.
  - rewrite H. apply sqrt_1.
Qed.

Lemma unitV_length v : unitV v <-> Vector3.length v = 1.
Proof. unfold unitV, Vector3.dot. symmetry. apply length_unit_iff. Qed.

Lemma GLSL_normalize_unit v : Vector3.length v = 1 -> GLSL.normalize v = v.
Proof.
  intros H. unfold GLSL.normalize. rewrite H. apply vec3_eq; simpl; field.
Qed.

Lemma Vector3_normalize_unit v : unitV v -> Vector3.normalize v = v.
Proof.
  intros H. apply unitV_length in H. unfold Vector3.normalize. rewrite H.
  destruct (Req_dec_T 1 0); [lra|]. apply vec3_eq; simpl; field.
Qed.

Lemma Rabs_lt_small x e : - e < x < e -> Rabs x < e.
Proof. intros H. unfold Rabs. destruct (Rcase_abs x); lra. Qed.

Lemma Rabs_not_small x e : x <= - e \/ e <= x -> ~ Rabs x < e.
Proof. intros H. unfold Rabs. destruct (Rcase_abs x); lra. Qed.

Lemma EPSILON_pos : 0 < EPSILON.
Proof. unfold EPSILON. apply Rinv_0_lt_compat. lra. Qed.

(** ** Integer coercion, clamping and wrapping *)

Lemma toInt32_range x : (-2147483648 <= toInt32 x < 2147483648)%Z.
Proof.
  unfold toInt32. pose proof (Z.mod_pos_bound (x + 2147483648) 4294967296). lia.
Qed.

Lemma toInt32_id x : (-2147483648 <= x < 2147483648)%Z -> toInt32 x = x.
Proof. intros H. unfold toInt32. rewrite Z.mod_small by lia. lia. Qed.

Lemma clampCount_range cap n : (3 <= cap)%Z -> (3 <= clampCount cap n <= cap)%Z.
Proof. unfold clampCount. lia. Qed.

Lemma wrapIndex_mod idx len :
  (0 < len)%Z -> wrapIndex idx len = (toInt32 idx mod len)%Z.
Proof.
  intros H. unfold wrapIndex.
  pose proof (Z.rem_bound_abs (toInt32 idx) len ltac:(lia)) as Hb.
  rewrite (Z.rem_mod_nonneg (Z.rem (toInt32 idx) len + len) len) by lia.
  rewrite Z.rem_eq by lia.
  replace (toInt32 idx - len * (toInt32 idx ÷ len) + len)%Z
    with (toInt32 idx + (1 - toInt32 idx ÷ len) * len)%Z by ring.
  apply Z.mod_add. lia.
Qed.

Lemma wrapIndex_range idx len : (0 < len)%Z -> (0 <= wrapIndex idx len < len)%Z.
Proof. intros H. rewrite wrapIndex_mod by assumption. apply Z.mod_pos_bound. lia. Qed.

Lemma wrapIndex_shift idx len :
  (0 < len)%Z -> (-2147483648 <= idx)%Z -> (idx + len < 2147483648)%Z ->
  wrapIndex (idx + len) len = wrapIndex idx len.
Proof.
  intros H Hlo Hhi. rewrite !wrapIndex_mod by assumption.
  rewrite !toInt32_id by lia.
  rewrite <- (Z.mul_1_l len) at 1. apply Z.mod_add. lia.
Qed.

Lemma wrapIndex_idem idx len :
  (0 < len < 2147483648)%Z -> wrapIndex (wrapIndex idx len) len = wrapIndex idx len.
Proof.
  intros H. pose proof (wrapIndex_range idx len ltac:(lia)) as Hr.
  rewrite (wrapIndex_mod (wrapIndex idx len)) by lia.
  rewrite toInt32_id by lia. apply Z.mod_small. lia.
Qed.

Example toInt32_examples :
  toInt32 13 = 13%Z /\ toInt32 (-1) = (-1)%Z
  /\ toInt32 4294967301 = 5%Z /\ toInt32 2147483648 = (-2147483648)%Z.
Proof. repeat split; reflexivity. Qed.

Example clampCount_examples :
  clampCount 128 2 = 3%Z /\ clampCount 128 13 = 13%Z
  /\ clampCount 128 1000 = 128%Z /\ clampCount 256 1000 = 256%Z.
Proof. repeat split; reflexivity. Qed.

Example wrapIndex_examples :
  wrapIndex 5 13 = 5%Z /\ wrapIndex 13 13 = 0%Z
  /\ wrapIndex (-1) 13 = 12%Z /\ wrapIndex (-14) 13 = 12%Z.
Proof. repeat split; reflexivity. Qed.

Example resultText_example : resultText 1 13 = "Result: 1 / d13"%string.
Proof. reflexivity. Qed.

(** ** The Fibonacci lattice *)

Lemma fibonacciSeeds_length n : List.length (fibonacciSeeds n) = Z.to_nat n.
Proof. unfold fibonacciSeeds. now rewrite length_map, length_seq. Qed.

Lemma fibonacciSeeds_nth n i d :
  (i < Z.to_nat n)%nat -> nth i (fibonacciSeeds n) d = fibonacciSeed n i.
Proof.
  intros H. unfold fibonacciSeeds.
  rewrite (nth_indep _ d (fibonacciSeed n 0)) by now rewrite length_map, length_seq.
  rewrite map_nth. now rewrite seq_nth.
Qed.

Section Lattice.

Variable n : Z.
Variable i : nat.
Hypothesis Hi : (i < Z.to_nat n)%nat.

Lemma lattice_n_pos : 0 < IZR n.
Proof. apply IZR_lt. lia. Qed.

Lemma lattice_z_range : -1 < latticeZ n i < 1.
Proof.
  assert (Hn := lattice_n_pos).
  assert (H0 : 0 <= INR i) by apply pos_INR.
  assert (H1 : INR i + 1 <= IZR n).
  { rewrite <- (Z2Nat.id n) by lia. rewrite <- INR_IZR_INZ.
    rewrite <- S_INR. apply le_INR. lia. }
  unfold latticeZ.
  assert (Ht : 0 < (INR i + 0.5) / IZR n < 1).
  { assert (Hinv : IZR n * / IZR n = 1) by (apply Rinv_r; lra).
    assert (Hpos : 0 < / IZR n) by (apply Rinv_0_lt_compat; lra).
    unfold Rdiv. split; nra. }
  lra.
Qed.

Lemma lattice_raw_sq :
  let z := latticeZ n i in
  let r := sqrt (Rmax 0 (1 - z * z)) in
  forall phi, (cos phi * r) * (cos phi * r) + z * z + (sin phi * r) * (sin phi * r) = 1.
Proof.
  intros z r phi. assert (Hz := lattice_z_range). fold z in Hz.
  assert (Hr : r * r = 1 - z * z).
  { unfold r. rewrite Rmax_right by nra. apply sqrt_sqrt. nra. }
  assert (Hcs := sin2_cos2 phi). unfold Rsqr in Hcs.
  nra.
Qed.

(** On the lattice the vector built in the loop already has length 1, so
    [normalize] returns it as it is. *)
Lemma fibonacciSeed_raw :
  let z := latticeZ n i in
  fibonacciSeed n i
  = mkVec3 (cos (INR i * GOLDEN_ANGLE) * sqrt (Rmax 0 (1 - z * z))) z
           (sin (INR i * GOLDEN_ANGLE) * sqrt (Rmax 0 (1 - z * z))).
Proof.
  intros z. unfold fibonacciSeed. cbv zeta.
  replace (1.0 - 2.0 * ((INR i + 0.5) / IZR n)) with z
    by (unfold z, latticeZ; lra).
  replace 0.0 with 0 by lra. replace 1.0 with 1 by lra.
  set (v := mkVec3 _ _ _).
  assert (Hl : Vector3.length v = 1).
  { apply length_unit_iff. unfold v; simpl. apply lattice_raw_sq. }
  unfold Vector3.normalize. rewrite Hl.
  destruct (Req_dec_T 1 0) as [H|_]; [lra|].
  apply vec3_eq; simpl; field.
Qed.

Lemma fibonacciSeed_unit : Vector3.length (fibonacciSeed n i) = 1.
Proof.
  rewrite fibonacciSeed_raw. apply length_unit_iff. simpl. apply lattice_raw_sq.
Qed.

Lemma fibonacciSeed_y : vy (fibonacciSeed n i) = latticeZ n i.
Proof. rewrite fibonacciSeed_raw. reflexivity. Qed.

Lemma fibonacciSeed_spec : fibonacciSeed n i = specSeed n i.
Proof.
  rewrite fibonacciSeed_raw. unfold specSeed. cbv zeta.
  fold (latticeZ n i). fold GOLDEN_ANGLE.
  rewrite GLSL_normalize_unit; [reflexivity|].
  apply length_unit_iff. simpl. apply lattice_raw_sq.
Qed.

End Lattice.

Lemma fibonacciSeed_inj n i j :
  (i < Z.to_nat n)%nat -> (j < Z.to_nat n)%nat ->
  fibonacciSeed n i = fibonacciSeed n j -> i = j.
Proof.
  intros Hi Hj H. apply (f_equal vy) in H.
  rewrite !fibonacciSeed_y in H by assumption. unfold latticeZ in H.
  assert (Hn := lattice_n_pos n i Hi).
  assert (E : INR i = INR j).
  { assert (E1 : (INR i + 0.5) / IZR n = (INR j + 0.5) / IZR n) by lra.
    apply (f_equal (fun x => x * IZR n)) in E1. 
    unfold Rdiv in E1. rewrite !Rmult_assoc, Rinv_l, !Rmult_1_r in E1 by lra. lra. }
  now apply INR_eq.
Qed.

Lemma NoDup_map_on {A B} (f : A -> B) (l : list A) :
  (forall x y, In x l -> In y l -> f x = f y -> x = y) ->
  NoDup l -> NoDup (map f l).
Proof.
  induction l as [|a l IH]; intros Hinj Hnd; simpl; [constructor|].
  inversion Hnd as [|? ? Hna Hnd']; subst. constructor.
  - intros Hin. apply in_map_iff in Hin. destruct Hin as [x [Hfx Hx]].
    apply Hna. rewrite <- (Hinj x a); simpl; auto.
  - apply IH; auto. intros x y Hx Hy. apply Hinj; simpl; auto.
Qed.

Lemma fibonacciSeeds_NoDup n : NoDup (fibonacciSeeds n).
Proof.
  unfold fibonacciSeeds. apply NoDup_map_on; [|apply seq_NoDup].
  intros x y Hx Hy. apply in_seq in Hx, Hy. apply fibonacciSeed_inj; lia.
Qed.

Lemma fibonacciSeeds_unit n : Forall (fun v => Vector3.length v = 1) (fibonacciSeeds n).
Proof.
  unfold fibonacciSeeds. apply Forall_forall. intros v Hv.
  apply in_map_iff in Hv. destruct Hv as [i [<- Hi]]. apply in_seq in Hi.
  apply fibonacciSeed_unit. lia.
Qed.

(** C3.  For every [n] in [3, MAX_SEEDS] (the larger capacity, 256, covers
    both variants), [fibonacciSeeds(n)] returns exactly [n] vectors; the
    i-th is the normalization of [(cos(phi)*r, z, sin(phi)*r)] with
    [t = (i + 0.5)/n], [z = 1 - 2t], [r = sqrt(max(0, 1 - z^2))] and
    [phi = i * pi * (3 - sqrt 5)]; every vector has norm 1 (exactly, in the
    real arithmetic the floating-point code approximates); and no two of
    them are identical.  The result is a function of [n] alone:
    [fibonacciSeeds] reads no state, so two calls with the same [n] return
    the same vectors. *)
Theorem fibonacciSeeds_lattice (n : Z) :
  (3 <= n <= Sphere.MAX_SEEDS)%Z ->
  List.length (fibonacciSeeds n) = Z.to_nat n
  /\ (forall i, (i < Z.to_nat n)%nat ->
                nth i (fibonacciSeeds n) vec3_zero = specSeed n i)
  /\ Forall (fun v => Vector3.length v = 1) (fibonacciSeeds n)
  /\ NoDup (fibonacciSeeds n).
Proof.
  intros Hn. split; [apply fibonacciSeeds_length|].
  split; [|split; [apply fibonacciSeeds_unit|apply fibonacciSeeds_NoDup]].
  intros i Hi. rewrite fibonacciSeeds_nth by assumption.
  apply fibonacciSeed_spec; assumption.
Qed.

(** C3 at [n = 13], the default face count of the polyhedron page. *)
Lemma fibonacciSeeds_lattice_witness :
  List.length (fibonacciSeeds 13) = 13%nat
  /\ (forall i, (i < 13)%nat -> nth i (fibonacciSeeds 13) vec3_zero = specSeed 13 i)
  /\ Forall (fun v => Vector3.length v = 1) (fibonacciSeeds 13)
  /\ NoDup (fibonacciSeeds 13).
Proof.
  apply (fibonacciSeeds_lattice 13). unfold Sphere.MAX_SEEDS. lia.
Defined.

(** ** Storing the seeds *)

(** *** The loops over the uniform array *)

Lemma overwrite_length (a : list vec3) i v :
  (i < List.length a)%nat ->
  List.length (firstn i a ++ v :: skipn (S i) a) = List.length a.
Proof.
  intros H. rewrite length_app. cbn [List.length].
  rewrite length_firstn, length_skipn. lia.
Qed.

Lemma setAt_Some a i v :
  (i < List.length a)%nat ->
  setAt a i v = Some (firstn i a ++ v :: skipn (S i) a).
Proof.
  intros H. unfold setAt. destruct (nth_error a i) eqn:E; [reflexivity|].
  apply nth_error_None in E. lia.
Qed.

Lemma forLoop_ext {S} (f g : nat -> S -> option S) k :
  forall i s, (forall j s', (i <= j < i + k)%nat -> f j s' = g j s') ->
              forLoop f i k s = forLoop g i k s.
Proof.
  induction k as [|k IH]; intros i s H; simpl; [reflexivity|].
  rewrite H by lia. destruct (g i s); [|reflexivity].
  apply IH. intros j s' Hj. apply H. lia.
Qed.

Lemma forLoop_setAt (f : nat -> vec3) k :
  forall i a, (i + k <= List.length a)%nat ->
    forLoop (fun j a => setAt a j (f j)) i k a
    = Some (firstn i a ++ map f (seq i k) ++ skipn (i + k) a).
Proof.
  induction k as [|k IH]; intros i a H; simpl.
  - rewrite Nat.add_0_r, firstn_skipn. reflexivity.
  - rewrite setAt_Some by lia.
    set (a' := firstn i a ++ f i :: skipn (S i) a).
    assert (Hl : List.length a' = List.length a).
    { apply overwrite_length. lia. }
    assert (Hfi : List.length (firstn i a) = i) by (rewrite length_firstn; lia).
    rewrite IH by lia. f_equal.
    assert (E1 : firstn (S i) a' = firstn i a ++ [f i]).
    { unfold a'. rewrite firstn_app, Hfi.
      rewrite firstn_all2 by lia.
      replace (S i - i)%nat with 1%nat by lia. reflexivity. }
    assert (E2 : skipn (S i + k) a' = skipn (i + S k) a).
    { unfold a'. rewrite skipn_app, Hfi.
      rewrite skipn_all2 by lia.
      replace (S i + k - i)%nat with (S k) by lia.
      rewrite app_nil_l, skipn_cons, skipn_skipn. f_equal. lia. }
    rewrite E1, E2, <- app_assoc. reflexivity.
Qed.

Lemma map_nth_seq {A} (l : list A) d :
  map (fun j => nth j l d) (seq 0 (List.length l)) = l.
Proof.
  induction l as [|x l IH]; simpl; [reflexivity|].
  f_equal. rewrite <- seq_shift, map_map. exact IH.
Qed.

Lemma map_const_seq {A} (x : A) i k : map (fun _ => x) (seq i k) = repeat x k.
Proof. revert i; induction k; intros i; simpl; [reflexivity|]. now rewrite IHk. Qed.

Lemma skipn_repeat {A} (x : A) n k : skipn n (repeat x k) = repeat x (k - n).
Proof.
  revert k; induction n as [|n IH]; intros k; simpl.
  - now rewrite Nat.sub_0_r.
  - destruct k; simpl; [reflexivity|apply IH].
Qed.

Lemma storeSeeds_spec cap n pts a :
  List.length a = cap -> List.length pts = n -> (n <= cap)%nat ->
  storeSeeds cap n pts a = Some (pts ++ repeat (mkVec3 1 0 0) (cap - n)).
Proof.
  intros Ha Hp Hn. unfold storeSeeds.
  rewrite (forLoop_setAt (fun _ => mkVec3 1 0 0)) by lia.
  simpl firstn. rewrite skipn_all2 by lia. rewrite app_nil_r, map_const_seq. simpl app.
  rewrite (forLoop_ext _ (fun j a => setAt a j (nth j pts vec3_zero))).
  - rewrite forLoop_setAt by (rewrite repeat_length; lia).
    simpl. rewrite <- Hp, map_nth_seq, skipn_repeat. reflexivity.
  - intros j s' Hj. rewrite (nth_error_nth' pts vec3_zero) by lia. reflexivity.
Qed.

Lemma firstn_length_app {A} (l1 l2 : list A) : firstn (List.length l1) (l1 ++ l2) = l1.
Proof.
  rewrite firstn_app, Nat.sub_diag, firstn_all. simpl. apply app_nil_r.
Qed.

Lemma Poly_setSeeds_spec n st :
  List.length (Poly.seeds st) = Z.to_nat Poly.MAX_SEEDS ->
  let c := clampCount Poly.MAX_SEEDS n in
  Poly.setSeeds n st
  = Some (Poly.mkState
            (fibonacciSeeds c ++ repeat (mkVec3 1 0 0) (Z.to_nat Poly.MAX_SEEDS - Z.to_nat c))
            c (Poly.offset st) (Poly.rot st) (Some (fibonacciSeeds c))
            (Poly.rotQ st) (Poly.anim st) (Poly.result st)).
Proof.
  intros Hl c. unfold Poly.setSeeds. fold c.
  assert (Hc := clampCount_range Poly.MAX_SEEDS n). fold c in Hc.
  unfold Poly.MAX_SEEDS in Hc at 1.
  rewrite (storeSeeds_spec _ _ _ _ Hl (fibonacciSeeds_length c)) by lia.
  reflexivity.
Qed.

Lemma Sphere_setSeeds_spec n st :
  List.length (Sphere.seeds st) = Z.to_nat Sphere.MAX_SEEDS ->
  let c := clampCount Sphere.MAX_SEEDS n in
  Sphere.setSeeds n st
  = Some (Sphere.mkState
            (fibonacciSeeds c ++ repeat (mkVec3 1 0 0) (Z.to_nat Sphere.MAX_SEEDS - Z.to_nat c))
            c (Some (fibonacciSeeds c)) (Sphere.quaternion st) (Sphere.anim st)
            (Sphere.frames st) (Sphere.nextHandle st) (Sphere.timers st) (Sphere.result st)).
Proof.
  intros Hl c. unfold Sphere.setSeeds. fold c.
  assert (Hc := clampCount_range Sphere.MAX_SEEDS n). fold c in Hc.
  unfold Sphere.MAX_SEEDS in Hc at 1.
  rewrite (storeSeeds_spec _ _ _ _ Hl (fibonacciSeeds_length c)) by lia.
  reflexivity.
Qed.

Lemma Poly_boot_spec n text :
  let c := clampCount Poly.MAX_SEEDS n in
  Poly.boot n text
  = Some (Poly.mkState
            (fibonacciSeeds c ++ repeat (mkVec3 1 0 0) (Z.to_nat Poly.MAX_SEEDS - Z.to_nat c))
            c Poly.POLY_OFFSET (Matrix3.fromQuaternion Quaternion.identity)
            (Some (fibonacciSeeds c)) Quaternion.identity None text).
Proof.
  intros c. unfold Poly.boot. rewrite Poly_setSeeds_spec by reflexivity. reflexivity.
Qed.

Lemma boot_d13 : Poly.boot 13 "" = Some d13.
Proof. rewrite Poly_boot_spec. reflexivity. Qed.

Lemma boot_s37 : Sphere.setSeeds 37 (Sphere.init "") = Some s37.
Proof. rewrite Sphere_setSeeds_spec by reflexivity. reflexivity. Qed.

Lemma seedsStored_clamp cap n :
  (3 <= cap <= 1000)%Z ->
  let c := clampCount cap n in
  seedsStored cap n
    (fibonacciSeeds c ++ repeat (mkVec3 1 0 0) (Z.to_nat cap - Z.to_nat c))
    c (Some (fibonacciSeeds c)).
Proof.
  intros Hcap c.
  assert (Hc := clampCount_range cap n (proj1 Hcap)). fold c in Hc.
  assert (Hf : firstn (Z.to_nat c)
                 (fibonacciSeeds c ++ repeat (mkVec3 1 0 0) (Z.to_nat cap - Z.to_nat c))
               = fibonacciSeeds c).
  { rewrite <- (fibonacciSeeds_length c) at 1. apply firstn_length_app. }
  unfold seedsStored. rewrite Hf.
  split; [reflexivity|].
  split; [intros Hn; unfold c, clampCount; now rewrite toInt32_id|].
  split; [intros ->; unfold c, clampCount; rewrite toInt32_id by lia; lia|].
  split; [intros ->; unfold c, clampCount; rewrite toInt32_id by lia; lia|].
  split; [exact Hc|].
  split; [rewrite length_app, fibonacciSeeds_length, repeat_length; lia|].
  split; [reflexivity|].
  split; [apply fibonacciSeeds_unit|reflexivity].
Qed.

(** C6 (amended).  In both variants, whenever the uniform array has its
    [MAX_SEEDS] slots, [setSeeds(n)] succeeds for every integer [n]: no
    input is rejected.  The face count it sets is [n | 0], that is [n]
    reduced to a signed 32-bit integer, clamped into [3, MAX_SEEDS]; this
    is [n] clamped into [3, MAX_SEEDS] whenever [n] is within the 32-bit
    range, so [setSeeds(2)] gives 3 and [setSeeds(1000)] gives
    [MAX_SEEDS].  Afterwards [3 <= count <= MAX_SEEDS], the array still
    has [MAX_SEEDS] slots, its first [count] slots and the stored
    direction list are [fibonacciSeeds(count)], and these have unit
    length. *)
Theorem setSeeds_clamps_int32 (n : Z) (ps : Poly.State) (ss : Sphere.State) :
  List.length (Poly.seeds ps) = Z.to_nat Poly.MAX_SEEDS ->
  List.length (Sphere.seeds ss) = Z.to_nat Sphere.MAX_SEEDS ->
  (exists ps', Poly.setSeeds n ps = Some ps'
               /\ seedsStored Poly.MAX_SEEDS n (Poly.seeds ps') (Poly.count ps')
                              (Poly.seedDirs ps'))
  /\ (exists ss', Sphere.setSeeds n ss = Some ss'
                  /\ seedsStored Sphere.MAX_SEEDS n (Sphere.seeds ss') (Sphere.count ss')
                                 (Sphere.seedDirs ss')).
Proof.
  intros Hp Hs. split.
  - eexists. split; [apply Poly_setSeeds_spec; assumption|].
    apply seedsStored_clamp. unfold Poly.MAX_SEEDS. lia.
  - eexists. split; [apply Sphere_setSeeds_spec; assumption|].
    apply seedsStored_clamp. unfold Sphere.MAX_SEEDS. lia.
Qed.

(** C6 (amended) at [setSeeds(1000)] on the two freshly built pages. *)
Lemma setSeeds_clamps_int32_witness :
  (exists ps', Poly.setSeeds 1000 (Poly.init "") = Some ps'
               /\ seedsStored Poly.MAX_SEEDS 1000 (Poly.seeds ps') (Poly.count ps')
                              (Poly.seedDirs ps'))
  /\ (exists ss', Sphere.setSeeds 1000 (Sphere.init "") = Some ss'
                  /\ seedsStored Sphere.MAX_SEEDS 1000 (Sphere.seeds ss') (Sphere.count ss')
                                 (Sphere.seedDirs ss')).
Proof.
  apply setSeeds_clamps_int32; reflexivity.
Defined.

(** C6 as stated fails: [4294967301 | 0] is 5, so [setSeeds(4294967301)]
    sets the count to 5, where clamping 4294967301 into [3, MAX_SEEDS]
    gives 128. *)
Lemma setSeeds_wraps_before_clamping :
  exists ps', Poly.setSeeds 4294967301 (Poly.init "") = Some ps'
              /\ Poly.count ps' = 5%Z
              /\ Z.max 3 (Z.min Poly.MAX_SEEDS 4294967301) = 128%Z.
Proof.
  eexists. split; [apply Poly_setSeeds_spec; reflexivity|].
  split; reflexivity.
Qed.

(** ** Rotations by unit quaternions *)

(** Rotation of [v] by a unit quaternion composes. *)
Lemma applyQuaternion_multiply v a b :
  unitQ a -> unitQ b ->
  Vector3.applyQuaternion v (Quaternion.multiply a b)
  = Vector3.applyQuaternion (Vector3.applyQuaternion v b) a.
Proof.
  unfold unitQ, Quaternion.dot.
  destruct v as [x y z], a as [ax ay az aw], b as [bx by_ bz bw]; simpl.
  intros Ha Hb. apply vec3_eq; simpl; nsatz.
Qed.

Lemma applyQuaternion_unit v q :
  unitQ q -> unitV v -> unitV (Vector3.applyQuaternion v q).
Proof.
  unfold unitQ, unitV, Quaternion.dot, Vector3.dot.
  destruct v as [x y z], q as [a b c w]; simpl.
  intros Hq Hv. nsatz.
Qed.

Lemma multiply_unit a b : unitQ a -> unitQ b -> unitQ (Quaternion.multiply a b).
Proof.
  unfold unitQ, Quaternion.dot. destruct a as [ax ay az aw], b as [bx by_ bz bw]; simpl.
  intros Ha Hb. nsatz.
Qed.

Lemma mulMV_fromQuaternion q v :
  GLSL.mulMV (Matrix3.fromQuaternion q) v = Vector3.applyQuaternion v q.
Proof. destruct q, v. apply vec3_eq; simpl; ring. Qed.

(** [Quaternion.normalize] on a non-zero quaternion. *)
Lemma Quaternion_normalize_scaled q :
  0 < Quaternion.dot q q ->
  exists k, k * k * Quaternion.dot q q = 1
            /\ Quaternion.normalize q = mkQuat (qx q * k) (qy q * k) (qz q * k) (qw q * k).
Proof.
  intros H. unfold Quaternion.normalize.
  assert (Hl : Quaternion.length q = sqrt (Quaternion.dot q q)) by reflexivity.
  assert (Hp : 0 < Quaternion.length q) by (rewrite Hl; now apply sqrt_lt_R0).
  assert (Hs : Quaternion.length q * Quaternion.length q = Quaternion.dot q q).
  { rewrite Hl. apply sqrt_sqrt. lra. }
  cbv zeta. destruct (Req_dec_T (Quaternion.length q) 0); [lra|].
  exists (1 / Quaternion.length q). split; [|reflexivity].
  rewrite <- Hs. field. lra.
Qed.

Lemma Quaternion_normalize_unit q : unitQ (Quaternion.normalize q).
Proof.
  destruct (Rle_lt_dec (Quaternion.dot q q) 0) as [H0|Hp].
  - assert (E : Quaternion.length q = 0).
    { unfold Quaternion.length. 
      replace (qx q * qx q + qy q * qy q + qz q * qz q + qw q * qw q) with 0.
      - apply sqrt_0.
      - unfold Quaternion.dot in H0. nra. }
    unfold Quaternion.normalize. cbv zeta. rewrite E.
    destruct (Req_dec_T 0 0); [|lra]. unfold unitQ, Quaternion.dot; simpl. ring.
  - destruct (Quaternion_normalize_scaled q Hp) as [k [Hk ->]].
    unfold unitQ, Quaternion.dot in *. simpl. nsatz.
Qed.

Lemma setFromUnitVectors_unit u v : unitQ (Quaternion.setFromUnitVectors u v).
Proof.
  unfold Quaternion.setFromUnitVectors. cbv zeta.
  destruct (Rlt_dec _ _); [destruct (Rgt_dec _ _)|]; apply Quaternion_normalize_unit.
Qed.

(** Away from the antipode the quaternion turns [u] onto [v] exactly. *)
Lemma setFromUnitVectors_turns u v :
  unitV u -> unitV v -> EPSILON <= Vector3.dot u v + 1 ->
  Vector3.applyQuaternion u (Quaternion.setFromUnitVectors u v) = v.
Proof.
  intros Hu Hv Hr. unfold Quaternion.setFromUnitVectors. cbv zeta.
  destruct (Rlt_dec _ _) as [H|_]; [lra|].
  assert (He : 0 < EPSILON) by (unfold EPSILON; apply Rinv_0_lt_compat; lra).
  set (q0 := mkQuat _ _ _ _).
  assert (Hn : Quaternion.dot q0 q0 = 2 * (Vector3.dot u v + 1)).
  { unfold q0, Quaternion.dot, unitV, Vector3.dot in *.
    destruct u as [ux uy uz], v as [vx vy vz]; simpl in *. nsatz. }
  destruct (Quaternion_normalize_scaled q0) as [k [Hk ->]]; [lra|].
  rewrite Hn in Hk. unfold q0, unitV, Vector3.dot in *.
  destruct u as [ux uy uz], v as [vx vy vz]; simpl in *.
  apply vec3_eq; simpl; nsatz.
Qed.

(** Within [EPSILON] of the antipode it turns [u] half a turn about an
    axis perpendicular to [u], onto [-u]. *)
Lemma setFromUnitVectors_flips u v :
  unitV u -> Vector3.dot u v + 1 < EPSILON ->
  Vector3.applyQuaternion u (Quaternion.setFromUnitVectors u v)
  = mkVec3 (- vx u) (- vy u) (- vz u).
Proof.
  intros Hu Hr. unfold Quaternion.setFromUnitVectors. cbv zeta.
  destruct (Rlt_dec _ _) as [_|H]; [|lra].
  unfold unitV, Vector3.dot in Hu.
  destruct (Rgt_dec (Rabs (vx u)) (Rabs (vz u))) as [Hg|Hg].
  - set (q0 := mkQuat _ _ _ _).
    assert (Hx : vx u <> 0).
    { intros E. rewrite E, Rabs_R0 in Hg. pose proof (Rabs_pos (vz u)). lra. }
    destruct (Quaternion_normalize_scaled q0) as [k [Hk ->]].
    { unfold q0, Quaternion.dot; simpl. nra. }
    unfold q0, Quaternion.dot in *.
    destruct u as [ux uy uz]; simpl in *.
    apply vec3_eq; simpl; nsatz.
  - set (q0 := mkQuat _ _ _ _).
    assert (Hyz : vy u <> 0 \/ vz u <> 0).
    { destruct (Req_dec (vz u) 0) as [E|E]; [|now right]. left. intros Ey.
      rewrite E, Rabs_R0 in Hg.
      assert (Rabs (vx u) = 0) by (pose proof (Rabs_pos (vx u)); lra).
      assert (vx u = 0).
      { destruct (Req_dec (vx u) 0); [assumption|].
        pose proof (Rabs_pos_lt (vx u) ltac:(assumption)). lra. }
      nra. }
    destruct (Quaternion_normalize_scaled q0) as [k [Hk ->]].
    { unfold q0, Quaternion.dot; simpl. destruct Hyz; nra. }
    unfold q0, Quaternion.dot in *.
    destruct u as [ux uy uz]; simpl in *.
    apply vec3_eq; simpl; nsatz.
Qed.

(** [Math.atan2] recovers the angle from its sine and cosine in the range
    [slerp] uses: [0 <= c], [0 < s], [c^2 + s^2 = 1]. *)
Lemma atan2_angle s c :
  0 <= c -> 0 < s -> c * c + s * s = 1 ->
  cos (Quaternion.atan2 s c) = c /\ sin (Quaternion.atan2 s c) = s.
Proof.
  intros Hc Hs H1. unfold Quaternion.atan2.
  destruct (Rlt_dec 0 c) as [Hp|Hz].
  - assert (Hq : sqrt (1 + (s / c) ^ 2) = / c).
    { apply sqrt_lem_1.
      - pose proof (pow2_ge_0 (s / c)). lra.
      - left. now apply Rinv_0_lt_compat.
      - assert (E : 1 + (s / c) ^ 2 = (c * c + s * s) * (/ c * / c)) by (field; lra).
        rewrite E, H1. ring. }
    rewrite cos_atan, sin_atan.
    replace (1 + (s / c)²) with (1 + (s / c) ^ 2) by (unfold Rsqr; ring).
    rewrite Hq. split; field; lra.
  - assert (c = 0) by lra. subst c.
    destruct (Rlt_dec 0 0); [lra|]. destruct (Rlt_dec 0 s); [|lra].
    rewrite cos_PI2, sin_PI2. split; [reflexivity|]. nra.
Qed.

Lemma slerp_core (a b : quat) c s sa ca sb cb k :
  unitQ a -> unitQ b -> Quaternion.dot a b = c ->
  s * s = 1 - c * c -> k * s = 1 ->
  s = sa * cb + ca * sb -> c = ca * cb - sa * sb ->
  sa * sa + ca * ca = 1 -> sb * sb + cb * cb = 1 ->
  unitQ (mkQuat (qx a * (sa * k) + qx b * (sb * k)) (qy a * (sa * k) + qy b * (sb * k))
                (qz a * (sa * k) + qz b * (sb * k)) (qw a * (sa * k) + qw b * (sb * k))).
Proof.
  unfold unitQ, Quaternion.dot. destruct a as [ax ay az aw], b as [bx by_ bz bw]; simpl.
  intros Ha Hb Hab Hs Hk Hsin Hcos H1 H2. nsatz.
Qed.

Lemma slerp_general (a b : quat) c t :
  unitQ a -> unitQ b -> Quaternion.dot a b = c -> 0 <= c -> 0 < 1 - c * c ->
  let sinHalfTheta := sqrt (1 - c * c) in
  let halfTheta := Quaternion.atan2 sinHalfTheta c in
  let ratioA := sin ((1 - t) * halfTheta) / sinHalfTheta in
  let ratioB := sin (t * halfTheta) / sinHalfTheta in
  unitQ (mkQuat (qx a * ratioA + qx b * ratioB) (qy a * ratioA + qy b * ratioB)
                (qz a * ratioA + qz b * ratioB) (qw a * ratioA + qw b * ratioB)).
Proof.
  intros Ha Hb Hab Hc Hp s th rA rB.
  assert (Hs : 0 < s) by (apply sqrt_lt_R0; assumption).
  assert (Hss : s * s = 1 - c * c) by (apply sqrt_sqrt; lra).
  destruct (atan2_angle s c Hc Hs ltac:(lra)) as [Hcos Hsin]. fold th in Hcos, Hsin.
  unfold rA, rB, Rdiv.
  apply (slerp_core a b c s (sin ((1 - t) * th)) (cos ((1 - t) * th))
                    (sin (t * th)) (cos (t * th)) (/ s)); try assumption.
  - apply Rinv_l. lra.
  - rewrite <- Hsin at 1. replace th with ((1 - t) * th + t * th) at 1 by ring.
    apply sin_plus.
  - rewrite <- Hcos at 1. replace th with ((1 - t) * th + t * th) at 1 by ring.
    apply cos_plus.
  - pose proof (sin2_cos2 ((1 - t) * th)) as H. unfold Rsqr in H. lra.
  - pose proof (sin2_cos2 (t * th)) as H. unfold Rsqr in H. lra.
Qed.

(** [slerp] of two unit quaternions is a unit quaternion. *)
Lemma slerp_unit a b t : unitQ a -> unitQ b -> unitQ (Quaternion.slerp a b t).
Proof.
  intros Ha Hb. unfold Quaternion.slerp.
  destruct (Req_dec_T t 0); [assumption|].
  destruct (Req_dec_T t 1); [assumption|].
  cbv zeta.
  pose proof EPSILON_pos as He.
  destruct (Rlt_dec (Quaternion.dot a b) 0) as [Hn|Hn].
  - set (b' := mkQuat (- qx b) (- qy b) (- qz b) (- qw b)).
    assert (Hb' : unitQ b').
    { unfold unitQ, Quaternion.dot, b' in *; simpl. nra. }
    assert (Hab : Quaternion.dot a b' = - Quaternion.dot a b).
    { unfold Quaternion.dot, b'; simpl. ring. }
    destruct (Rge_dec _ 1); [assumption|].
    destruct (Rle_dec _ EPSILON); [apply Quaternion_normalize_unit|].
    apply (slerp_general a b' (- Quaternion.dot a b) t); try assumption; lra.
  - destruct (Rge_dec _ 1); [assumption|].
    destruct (Rle_dec _ EPSILON); [apply Quaternion_normalize_unit|].
    apply (slerp_general a b (Quaternion.dot a b) t); try assumption; try reflexivity; lra.
Qed.

Lemma identity_unit : unitQ Quaternion.identity.
Proof. unfold unitQ, Quaternion.dot, Quaternion.identity; simpl. ring. Qed.

Lemma zWorld_unit : unitV Poly.zWorld.
Proof. unfold unitV, Vector3.dot, Poly.zWorld; simpl. ring. Qed.

(** The end orientation brings the target direction onto +Z. *)
Lemma end_orientation_faces_viewer d q :
  unitV d -> unitQ q ->
  let nWorld := Vector3.normalize (Vector3.applyQuaternion d q) in
  let endQ := Quaternion.multiply (Quaternion.setFromUnitVectors nWorld Poly.zWorld) q in
  dist2 (Vector3.applyQuaternion d endQ) Poly.zWorld <= 2 * EPSILON
  /\ (EPSILON <= Vector3.dot (Vector3.applyQuaternion d q) Poly.zWorld + 1 ->
      Vector3.applyQuaternion d endQ = Poly.zWorld).
Proof.
  intros Hd Hq nWorld endQ.
  assert (Hw : unitV (Vector3.applyQuaternion d q)) by now apply applyQuaternion_unit.
  assert (En : nWorld = Vector3.applyQuaternion d q)
    by (unfold nWorld; now apply Vector3_normalize_unit).
  assert (Ee : Vector3.applyQuaternion d endQ
               = Vector3.applyQuaternion nWorld
                   (Quaternion.setFromUnitVectors nWorld Poly.zWorld)).
  { unfold endQ. rewrite applyQuaternion_multiply;
      [now rewrite <- En | apply setFromUnitVectors_unit | assumption]. }
  rewrite Ee. rewrite <- En in Hw |- *.
  pose proof EPSILON_pos as He.
  destruct (Rlt_dec (Vector3.dot nWorld Poly.zWorld + 1) EPSILON) as [Hlt|Hge].
  - split; [|lra].
    rewrite setFromUnitVectors_flips by assumption.
    unfold dist2, unitV, Vector3.dot, Poly.zWorld in *. simpl in *. nra.
  - rewrite setFromUnitVectors_turns by (try assumption; try apply zWorld_unit; lra).
    split; [|reflexivity].
    unfold dist2. nra.
Qed.

(** ** The invariant of the polyhedron page *)

Lemma stored_invariant c :
  (3 <= c <= Poly.MAX_SEEDS)%Z ->
  let a := fibonacciSeeds c ++ repeat (mkVec3 1 0 0) (Z.to_nat Poly.MAX_SEEDS - Z.to_nat c) in
  List.length a = Z.to_nat Poly.MAX_SEEDS
  /\ firstn (Z.to_nat c) a = fibonacciSeeds c
  /\ Forall (fun v => Vector3.length v = 1) (firstn (Z.to_nat c) a).
Proof.
  intros Hc a.
  assert (Hf : firstn (Z.to_nat c) a = fibonacciSeeds c).
  { unfold a. rewrite <- (fibonacciSeeds_length c) at 1. apply firstn_length_app. }
  split; [|split; [exact Hf|rewrite Hf; apply fibonacciSeeds_unit]].
  unfold a. rewrite length_app, fibonacciSeeds_length, repeat_length.
  unfold Poly.MAX_SEEDS in *. lia.
Qed.

Lemma boot_polyhedronState n text st :
  Poly.boot n text = Some st -> polyhedronState st.
Proof.
  rewrite Poly_boot_spec. intros H; injection H as <-.
  pose proof (clampCount_range Poly.MAX_SEEDS n ltac:(unfold Poly.MAX_SEEDS; lia)) as Hc.
  destruct (stored_invariant _ Hc) as (H1 & H2 & H3).
  unfold polyhedronState.
  split; [exact H1|]. split; [exact Hc|].
  split; [exact (f_equal Some (eq_sym H2))|].
  split; [exact H3|]. split; [reflexivity|]. split; [exact identity_unit|].
  split; [reflexivity|discriminate].
Qed.

Lemma setSeeds_polyhedronState n st st' :
  polyhedronState st -> Poly.setSeeds n st = Some st' -> polyhedronState st'.
Proof.
  intros (Hl & _ & _ & _ & Ho & Hq & Hr & Ha).
  rewrite Poly_setSeeds_spec by assumption. intros H; injection H as <-.
  pose proof (clampCount_range Poly.MAX_SEEDS n ltac:(unfold Poly.MAX_SEEDS; lia)) as Hc.
  destruct (stored_invariant _ Hc) as (H1 & H2 & H3).
  unfold polyhedronState.
  split; [exact H1|]. split; [exact Hc|].
  split; [exact (f_equal Some (eq_sym H2))|].
  split; [exact H3|]. split; [exact Ho|]. split; [exact Hq|]. split; [exact Hr|exact Ha].
Qed.

Lemma rollTo_polyhedronState idx now st :
  polyhedronState st -> polyhedronState (Poly.rollTo idx now st).
Proof.
  intros Hv. pose proof Hv as (Hl & Hc & Hd & Hu & Ho & Hq & Hr & Ha).
  unfold Poly.rollTo. rewrite Hd.
  destruct (List.length _ =? 0)%nat; [exact Hv|].
  unfold polyhedronState.
  split; [exact Hl|]. split; [exact Hc|]. split; [reflexivity|].
  split; [exact Hu|]. split; [exact Ho|]. split; [exact Hq|]. split; [exact Hr|].
  intros a H. injection H as <-.
  split; [exact Hq|]. split; [|reflexivity].
  apply multiply_unit; [apply setFromUnitVectors_unit|assumption].
Qed.

Lemma render_polyhedronState now st :
  polyhedronState st -> polyhedronState (Poly.render now st).
Proof.
  intros Hv. pose proof Hv as (Hl & Hc & Hd & Hu & Ho & Hq & Hr & Ha).
  unfold Poly.render. destruct (Poly.anim st) as [a|] eqn:E; [|exact Hv].
  destruct (Ha a eq_refl) as (Hs & He & Hdur).
  cbv zeta. unfold Poly.applyRotationUniform.
  destruct (Rge_dec _ 1); unfold polyhedronState;
    (split; [exact Hl|]); (split; [exact Hc|]); (split; [exact Hd|]);
    (split; [exact Hu|]); (split; [exact Ho|]);
    (split; [now apply slerp_unit|]); (split; [reflexivity|]).
  - discriminate.
  - intros a' H. injection H as <-. now repeat split.
Qed.

Lemma reachable_polyhedronState st : reachable st -> polyhedronState st.
Proof.
  induction 1.
  - eapply boot_polyhedronState; eassumption.
  - eapply setSeeds_polyhedronState; eassumption.
  - now apply rollTo_polyhedronState.
  - now apply render_polyhedronState.
Qed.

Lemma d13_polyhedronState : polyhedronState d13.
Proof. exact (boot_polyhedronState 13 "" d13 boot_d13). Qed.

Lemma tripodState_polyhedronState : polyhedronState tripodState.
Proof.
  unfold polyhedronState.
  split; [reflexivity|]. split; [split; discriminate|]. split; [reflexivity|].
  split.
  { change (firstn (Z.to_nat (Poly.count tripodState)) (Poly.seeds tripodState))
      with tripod.
    repeat constructor; apply length_unit_iff; simpl; ring. }
  split; [reflexivity|]. split; [exact identity_unit|].
  split; [reflexivity|discriminate].
Qed.

Lemma firstn_nth {A} (l : list A) k i d :
  (i < k)%nat -> nth i (firstn k l) d = nth i l d.
Proof.
  revert k i; induction l as [|x l IH]; intros [|k] [|i] H; simpl; try lia; auto.
  apply IH. lia.
Qed.

(** In a polyhedron state the stored directions are the active seeds. *)
Lemma polyhedronState_dirs st :
  polyhedronState st ->
  exists dirs,
    Poly.seedDirs st = Some dirs /\ dirs <> []
    /\ Z.of_nat (List.length dirs) = Poly.count st
    /\ Forall (fun v => Vector3.length v = 1) dirs
    /\ (forall i, (Z.of_nat i < Poly.count st)%Z ->
                  nth i dirs vec3_zero = Poly.seedAt st i).
Proof.
  intros (Hl & Hc & Hd & Hu & _). unfold Poly.MAX_SEEDS in *.
  exists (firstn (Z.to_nat (Poly.count st)) (Poly.seeds st)).
  assert (Hn : List.length (firstn (Z.to_nat (Poly.count st)) (Poly.seeds st))
               = Z.to_nat (Poly.count st)) by (rewrite length_firstn; lia).
  split; [exact Hd|]. split.
  { intros E. rewrite E in Hn. simpl in Hn. lia. }
  split; [rewrite Hn; lia|]. split; [exact Hu|].
  intros i Hi. unfold Poly.seedAt. apply firstn_nth. lia.
Qed.

(** In a polyhedron state every active face has a unit normal. *)
Lemma polyhedronState_unitNormals u : polyhedronState u -> unitNormals u.
Proof.
  intros Hv i Hi.
  destruct (polyhedronState_dirs u Hv) as (dirs & _ & _ & Hlen & Hu & Hnth).
  destruct Hv as (_ & _ & _ & _ & _ & Hq & Hr & _).
  rewrite Hr, mulMV_fromQuaternion. apply unitV_length.
  apply applyQuaternion_unit; [assumption|]. apply unitV_length.
  rewrite <- Hnth by assumption.
  rewrite Forall_forall in Hu. apply Hu, nth_In. lia.
Qed.

(** ** The ray/polyhedron intersector *)

(** *** The shader's loop refines the slab algorithm *)

Lemma remaining_0 u : remaining u 0 = activeNormals u.
Proof. unfold remaining, activeNormals. now rewrite Nat.sub_0_r. Qed.

Lemma remaining_nil u i : (Z.of_nat i >= Poly.count u)%Z -> remaining u i = [].
Proof.
  intros H. unfold remaining.
  replace (Z.to_nat (Poly.count u) - i)%nat with 0%nat by lia. reflexivity.
Qed.

Lemma skipn_nth_cons {A} (d : A) (l : list A) i :
  (i < List.length l)%nat -> skipn i l = nth i l d :: skipn (S i) l.
Proof.
  revert i; induction l as [|a l IH]; intros [|i] H; simpl in *; try lia; auto.
  apply IH. lia.
Qed.

Lemma remaining_cons u i :
  (Z.of_nat i < Poly.count u)%Z -> (i < List.length (Poly.seeds u))%nat ->
  remaining u i = GLSL.mulMV (Poly.rot u) (Poly.seedAt u i) :: remaining u (S i).
Proof.
  intros Hc Hl. unfold remaining, Poly.seedAt.
  rewrite (skipn_nth_cons vec3_zero) by assumption.
  replace (Z.to_nat (Poly.count u) - i)%nat with (S (Z.to_nat (Poly.count u) - S i)) by lia.
  reflexivity.
Qed.

Lemma activeNormals_nth u e :
  (Z.of_nat e < Poly.count u)%Z -> (e < List.length (Poly.seeds u))%nat ->
  nth e (activeNormals u) vec3_zero = GLSL.mulMV (Poly.rot u) (Poly.seedAt u e).
Proof.
  intros Hc Hl. unfold activeNormals, Poly.seedAt.
  assert (Hz : GLSL.mulMV (Poly.rot u) vec3_zero = vec3_zero).
  { unfold GLSL.mulMV, vec3_zero; simpl. f_equal; ring. }
  rewrite <- Hz at 1. rewrite map_nth. f_equal.
  rewrite <- (firstn_skipn (Z.to_nat (Poly.count u)) (Poly.seeds u)) at 2.
  rewrite app_nth1; [reflexivity|].
  rewrite length_firstn. lia.
Qed.

Lemma finish_close u ro rd tN tF e :
  unitNormals u -> entered u e ->
  outcome (Poly.finish u ro rd tN tF e)
  = close u ro rd (Some (SlabSpec.mkInterval tN (SlabSpec.Fin tF) (encode e))).
Proof.
  intros Hu He. unfold Poly.finish, close, encode; simpl.
  destruct He as [-> | [Hr Hl]]; simpl; [reflexivity|].
  destruct (Z.ltb_spec e 0); [lia|]. simpl.
  replace 0.0 with 0 by lra.
  destruct (Rlt_dec tF 0); simpl; [reflexivity|].
  unfold outcome; simpl.
  rewrite activeNormals_nth by (try assumption; lia).
  rewrite GLSL_normalize_unit by (apply Hu; lia).
  reflexivity.
Qed.

Lemma intersectLoop_slab u ro rd :
  unitNormals u ->
  forall fuel i tN tF e,
    (i + fuel = List.length (Poly.seeds u))%nat ->
    entered u e ->
    outcome (Poly.intersectLoop u ro rd fuel i tN tF e)
    = close u ro rd
        (SlabSpec.faces 1e-6 (Poly.offset u) ro rd i (remaining u i)
           (SlabSpec.mkInterval tN (SlabSpec.Fin tF) (encode e))).
Proof.
  intros Hu. induction fuel as [|fuel IH]; intros i tN tF e Hlen He.
  - simpl. unfold remaining. rewrite skipn_all2 by lia. rewrite firstn_nil. simpl.
    apply finish_close; assumption.
  - simpl Poly.intersectLoop.
    destruct (Z.geb_spec (Z.of_nat i) (Poly.count u)) as [Hge|Hlt].
    + rewrite remaining_nil by lia. simpl. apply finish_close; assumption.
    + rewrite remaining_cons by lia. simpl SlabSpec.faces.
      unfold SlabSpec.face, GLSL.dot. 
      set (n := GLSL.mulMV (Poly.rot u) (Poly.seedAt u i)).
      set (denom := Vector3.dot n rd).
      set (num := Poly.offset u - Vector3.dot n ro).
      assert (Hi : entered u (Z.of_nat i)).
      { right. split; [lia|]. rewrite Nat2Z.id. lia. }
      assert (Henc : encode (Z.of_nat i) = Some i).
      { unfold encode. destruct (Z.ltb_spec (Z.of_nat i) 0); [lia|]. now rewrite Nat2Z.id. }
      replace 0.0 with 0 by lra.
      destruct (Rlt_dec (Rabs denom) 1e-6) as [Hp|Hp].
      * destruct (Rlt_dec num 0); [reflexivity|].
        apply IH; [lia|assumption].
      * destruct (Rlt_dec denom 0) as [Hd|Hd].
        -- simpl SlabSpec.tNear.
           destruct (Rgt_dec (num / denom) tN) as [Ht'|Ht'],
                    (Rlt_dec tN (num / denom)) as [Ht|Ht]; try lra; simpl.
           ++ destruct (Rgt_dec (num / denom) tF), (Rlt_dec tF (num / denom)); try lra;
                [reflexivity|]. rewrite <- Henc. apply IH; [lia|assumption].
           ++ destruct (Rgt_dec tN tF), (Rlt_dec tF tN); try lra;
                [reflexivity|]. apply IH; [lia|assumption].
        -- assert (H0 : 0 < denom).
           { unfold Rabs in Hp. destruct (Rcase_abs denom); lra. }
           destruct (Rlt_dec 0 denom); [|lra]. simpl.
           destruct (Rlt_dec (num / denom) tF) as [Ht|Ht]; simpl.
           ++ destruct (Rgt_dec tN (num / denom)), (Rlt_dec (num / denom) tN); try lra;
                [reflexivity|]. apply IH; [lia|assumption].
           ++ destruct (Rgt_dec tN tF), (Rlt_dec tF tN); try lra;
                [reflexivity|]. apply IH; [lia|assumption].
Qed.

Lemma entered_init u : entered u (-1).
Proof. now left. Qed.

(** *** The sentinel against +infinity *)

Lemma face_mirrors B eps offset ro rd i n c s :
  withinSentinel B eps offset ro rd n -> mirrors B c s ->
  match SlabSpec.face eps offset ro rd i n c, SlabSpec.face eps offset ro rd i n s with
  | Some c', Some s' => mirrors B c' s'
  | None, None => True
  | _, _ => False
  end.
Proof.
  intros Hb (Hn & He & Hle & Hf). unfold SlabSpec.face, withinSentinel in *.
  destruct c as [cn cf ce], s as [sn sf se]; simpl in *. subst cn ce.
  set (denom := Vector3.dot n rd) in *.
  set (num := offset - Vector3.dot n ro) in *.
  destruct (Rlt_dec (Rabs denom) eps) as [Hp|Hp].
  - destruct (Rlt_dec num 0); [exact I|]. repeat split; assumption.
  - specialize (Hb Hp).
    destruct (Rlt_dec denom 0) as [Hd|Hd].
    + destruct (Rlt_dec sn (num / denom)) as [Ht|Ht]; simpl.
      * destruct Hf as [[-> ->]|[x [-> ->]]]; simpl.
        -- destruct (Rlt_dec B (num / denom)); [lra|].
           repeat split; simpl; auto.
        -- destruct (Rlt_dec x (num / denom)); [exact I|].
           repeat split; simpl; eauto.
      * destruct Hf as [[-> ->]|[x [-> ->]]]; simpl.
        -- destruct (Rlt_dec B sn); [lra|]. repeat split; simpl; auto.
        -- destruct (Rlt_dec x sn); [exact I|]. repeat split; simpl; eauto.
    + destruct (Rlt_dec 0 denom) as [Hq|Hq].
      * destruct Hf as [[-> ->]|[x [-> ->]]]; simpl.
        -- destruct (Rlt_dec (num / denom) B) as [Ht|Ht]; simpl.
           ++ destruct (Rlt_dec (num / denom) sn); [exact I|].
              repeat split; simpl; eauto.
           ++ assert (E : num / denom = B) by lra.
              destruct (Rlt_dec B sn); [lra|].
              destruct (Rlt_dec (num / denom) sn); [lra|].
              repeat split; simpl; auto. right. exists B. now rewrite E.
        -- destruct (Rlt_dec (num / denom) x); simpl.
           ++ destruct (Rlt_dec (num / denom) sn); [exact I|].
              repeat split; simpl; eauto.
           ++ destruct (Rlt_dec x sn); [exact I|]. repeat split; simpl; eauto.
      * destruct Hf as [[-> ->]|[x [-> ->]]]; simpl.
        -- destruct (Rlt_dec B sn); [lra|]. repeat split; simpl; auto.
        -- destruct (Rlt_dec x sn); [exact I|]. repeat split; simpl; eauto.
Qed.

Lemma faces_mirrors B eps offset ro rd ns :
  Forall (withinSentinel B eps offset ro rd) ns ->
  forall i c s, mirrors B c s ->
  match SlabSpec.faces eps offset ro rd i ns c, SlabSpec.faces eps offset ro rd i ns s with
  | Some c', Some s' => mirrors B c' s'
  | None, None => True
  | _, _ => False
  end.
Proof.
  induction 1 as [|n ns Hn Hns IH]; intros i c s Hm; simpl; [exact Hm|].
  pose proof (face_mirrors B eps offset ro rd i n c s Hn Hm) as H.
  destruct (SlabSpec.face eps offset ro rd i n c) as [c'|],
           (SlabSpec.face eps offset ro rd i n s) as [s'|]; try contradiction.
  - now apply IH.
  - exact I.
Qed.

Lemma slab_sentinel B eps offset normals ro rd :
  0 <= B -> Forall (withinSentinel B eps offset ro rd) normals ->
  SlabSpec.slab (SlabSpec.Fin B) eps offset normals ro rd
  = SlabSpec.slab SlabSpec.PInf eps offset normals ro rd.
Proof.
  intros HB Hall. unfold SlabSpec.slab.
  assert (Hm : mirrors B (SlabSpec.mkInterval 0 (SlabSpec.Fin B) None)
                         (SlabSpec.mkInterval 0 SlabSpec.PInf None)).
  { repeat split; simpl; auto. }
  pose proof (faces_mirrors B eps offset ro rd normals Hall 0%nat _ _ Hm) as H.
  destruct (SlabSpec.faces eps offset ro rd 0 normals _) as [c|],
           (SlabSpec.faces eps offset ro rd 0 normals _) as [s|]; try contradiction;
    [|reflexivity].
  destruct H as (Hn & He & Hle & Hf). rewrite He, Hn.
  destruct (SlabSpec.enterFace s); [|reflexivity].
  destruct Hf as [[-> ->]|[x [-> ->]]]; simpl; [|reflexivity].
  destruct (Rlt_dec B 0); [lra|reflexivity].
Qed.

Lemma cauchy_schwarz n r :
  Vector3.dot n r * Vector3.dot n r <= Vector3.dot n n * Vector3.dot r r.
Proof.
  unfold Vector3.dot. destruct n as [a b c], r as [x y z]; simpl.
  pose proof (Rle_0_sqr (a * y - b * x)) as H1.
  pose proof (Rle_0_sqr (b * z - c * y)) as H2.
  pose proof (Rle_0_sqr (c * x - a * z)) as H3.
  unfold Rsqr in *. nra.
Qed.

Lemma div_le_pos num denom B : 0 < denom -> num <= B * denom -> num / denom <= B.
Proof.
  intros Hd H. unfold Rdiv. pose proof (Rinv_0_lt_compat _ Hd) as Hi.
  assert (E : denom * / denom = 1) by (apply Rinv_r; lra).
  replace B with (B * (denom * / denom)) by (rewrite E; ring). nra.
Qed.

Lemma div_le_neg num denom B : denom < 0 -> B * denom <= num -> num / denom <= B.
Proof.
  intros Hd H. replace (num / denom) with ((- num) / (- denom)) by (field; lra).
  apply div_le_pos; lra.
Qed.

(** Seen from within distance 999 of the centre, every face of unit normal
    is met within the sentinel distance. *)
Lemma near_ray_withinSentinel ro rd n :
  Vector3.length n = 1 -> Vector3.dot ro ro <= 999 * 999 ->
  withinSentinel 1e9 1e-6 Poly.POLY_OFFSET ro rd n.
Proof.
  intros Hn Hro Hp. apply length_unit_iff in Hn.
  pose proof (cauchy_schwarz n ro) as Hcs.
  change (Vector3.dot n n) with (vx n * vx n + vy n * vy n + vz n * vz n) in Hcs.
  rewrite Hn in Hcs.
  assert (Hb : -999 <= Vector3.dot n ro <= 999) by nra.
  unfold Poly.POLY_OFFSET.
  assert (Hd : Vector3.dot n rd <= - 1e-6 \/ 1e-6 <= Vector3.dot n rd).
  { unfold Rabs in Hp. destruct (Rcase_abs (Vector3.dot n rd)); lra. }
  destruct Hd as [Hd|Hd]; [apply div_le_neg|apply div_le_pos]; lra.
Qed.

Lemma activeNormals_unit u :
  polyhedronState u -> Forall (fun n => Vector3.length n = 1) (activeNormals u).
Proof.
  intros Hv. pose proof (polyhedronState_unitNormals u Hv) as Hu.
  destruct Hv as (Hl & Hc & _). unfold Poly.MAX_SEEDS in *.
  apply Forall_forall. intros n Hin.
  apply (In_nth _ _ vec3_zero) in Hin. destruct Hin as (i & Hi & <-).
  unfold activeNormals in Hi. rewrite length_map, length_firstn in Hi.
  rewrite activeNormals_nth by lia. apply Hu. lia.
Qed.

(** C1 (amended).  For every ray origin and direction and every polyhedron
    state, the intersector follows the slab-clipping algorithm as
    specified except that [tFar] starts at 1e9, the shader's finite
    stand-in for +infinity: starting from [tNear = 0], [tFar = 1e9] and
    [enterFace] unset, for each active face [i], with
    [n_i = rot * seeds[i]], [denom = dot(n_i, rayDir)] and
    [num = offset - dot(n_i, rayOrigin)], it reports no hit when
    [|denom| < 1e-6] and [num < 0] and skips the face when [|denom| < 1e-6]
    otherwise; else, with [t = num/denom], it updates [tNear] and
    [enterFace] when [denom < 0] and [t > tNear], updates [tFar] when
    [denom > 0] and [t < tFar], and reports no hit as soon as
    [tNear > tFar]; after all faces it reports no hit exactly when
    [enterFace] is unset or [tFar < 0], and otherwise the hit distance
    [max(tNear, 0)], the hit point [origin + direction * hitDistance] and
    the entering face's normal.  For a ray whose origin is within distance
    999 of the centre (the camera is at distance 3) this is the outcome of
    the algorithm started from [tFar = +infinity]. *)
Theorem intersectPoly_sentinel_slab (u : Poly.State) (ro rd : vec3) :
  polyhedronState u ->
  outcome (Poly.intersectPoly u ro rd)
  = SlabSpec.slab (SlabSpec.Fin 1e9) 1e-6 (Poly.offset u) (activeNormals u) ro rd
  /\ (Vector3.dot ro ro <= 999 * 999 ->
      outcome (Poly.intersectPoly u ro rd)
      = SlabSpec.slab SlabSpec.PInf 1e-6 (Poly.offset u) (activeNormals u) ro rd).
Proof.
  intros Hv. pose proof (polyhedronState_unitNormals u Hv) as Hu.
  assert (E : outcome (Poly.intersectPoly u ro rd)
              = SlabSpec.slab (SlabSpec.Fin 1e9) 1e-6 (Poly.offset u)
                              (activeNormals u) ro rd).
  { destruct Hv as (Hlen & _). unfold Poly.intersectPoly.
    replace 0.0 with 0 by lra.
    rewrite (intersectLoop_slab u ro rd Hu) by (try apply entered_init; lia).
    rewrite remaining_0. reflexivity. }
  split; [exact E|]. intros Hro. rewrite E.
  apply slab_sentinel; [lra|].
  pose proof (activeNormals_unit u Hv) as Hn.
  destruct Hv as (_ & _ & _ & _ & -> & _).
  eapply Forall_impl; [|exact Hn].
  intros n Hlen. now apply near_ray_withinSentinel.
Qed.

(** C1 (amended) on the booted thirteen-faced die, for the ray through the
    centre of the view: the camera sits at (0, 0, 3) and looks down -Z. *)
Lemma intersectPoly_sentinel_slab_witness :
  outcome (Poly.intersectPoly d13 (mkVec3 0 0 3) (mkVec3 0 0 (-1)))
  = SlabSpec.slab SlabSpec.PInf 1e-6 (Poly.offset d13)
      (activeNormals d13) (mkVec3 0 0 3) (mkVec3 0 0 (-1)).
Proof.
  apply intersectPoly_sentinel_slab; [exact d13_polyhedronState|].
  unfold Vector3.dot; simpl. lra.
Defined.

(** *** A ray whose entry lies beyond the sentinel *)

Lemma mulMV_identity_rotation v : GLSL.mulMV (Matrix3.fromQuaternion Quaternion.identity) v = v.
Proof. apply vec3_eq; simpl; ring. Qed.

Lemma intersectLoop_S u ro rd fuel i tNear tFar enterIdx :
  Poly.intersectLoop u ro rd (S fuel) i tNear tFar enterIdx
  = if (Z.of_nat i >=? Poly.count u)%Z then Poly.finish u ro rd tNear tFar enterIdx
    else
      let n := GLSL.mulMV (Poly.rot u) (Poly.seedAt u i) in
      let denom := GLSL.dot n rd in
      let num := Poly.offset u - GLSL.dot n ro in
      if Rlt_dec (Rabs denom) 1e-6 then
        if Rlt_dec num 0.0 then Poly.noHit
        else Poly.intersectLoop u ro rd fuel (S i) tNear tFar enterIdx
      else
        let t := num / denom in
        let '(tNear', tFar', enterIdx') :=
          if Rlt_dec denom 0.0 then
            if Rgt_dec t tNear then (t, tFar, Z.of_nat i)
            else (tNear, tFar, enterIdx)
          else
            if Rlt_dec t tFar then (tNear, t, enterIdx)
            else (tNear, tFar, enterIdx) in
        if Rgt_dec tNear' tFar' then Poly.noHit
        else Poly.intersectLoop u ro rd fuel (S i) tNear' tFar' enterIdx'.
Proof. reflexivity. Qed.

Lemma far_ray_code :
  Poly.intersectPoly tripodState (mkVec3 0 0 2e9) (mkVec3 0 0 (-1)) = Poly.noHit.
Proof.
  unfold Poly.intersectPoly.
  change (Z.to_nat Poly.MAX_SEEDS) with (S 127).
  rewrite intersectLoop_S.
  change (Z.of_nat 0 >=? Poly.count tripodState)%Z with false.
  cbv iota. 
  change (Poly.rot tripodState) with (Matrix3.fromQuaternion Quaternion.identity).
  rewrite mulMV_identity_rotation.
  change (Poly.seedAt tripodState 0) with (mkVec3 0 0 1).
  change (Poly.offset tripodState) with 0.9.
  cbv zeta.
  replace (GLSL.dot (mkVec3 0 0 1) (mkVec3 0 0 (-1))) with (-1)
    by (unfold GLSL.dot, Vector3.dot; simpl; ring).
  replace (GLSL.dot (mkVec3 0 0 1) (mkVec3 0 0 2e9)) with 2e9
    by (unfold GLSL.dot, Vector3.dot; simpl; ring).
  destruct (Rlt_dec (Rabs (-1)) 1e-6) as [H|_].
  { unfold Rabs in H. destruct (Rcase_abs (-1)); lra. }
  destruct (Rlt_dec (-1) 0.0) as [_|H]; [|lra].
  destruct (Rgt_dec ((0.9 - 2e9) / -1) 0.0) as [_|H]; [|lra].
  destruct (Rgt_dec ((0.9 - 2e9) / -1) 1e9) as [_|H]; [|lra].
  reflexivity.
Qed.

Lemma activeNormals_tripod : activeNormals tripodState = tripod.
Proof.
  unfold activeNormals. simpl. rewrite !mulMV_identity_rotation. reflexivity.
Qed.

Lemma far_ray_spec :
  SlabSpec.slab SlabSpec.PInf 1e-6 (Poly.offset tripodState)
                (activeNormals tripodState) (mkVec3 0 0 2e9) (mkVec3 0 0 (-1))
  = SlabSpec.HitAt (Rmax (2e9 - 0.9) 0) 0 (mkVec3 0 0 1)
                   (GLSL.madd (mkVec3 0 0 2e9) (mkVec3 0 0 (-1)) (Rmax (2e9 - 0.9) 0)).
Proof.
  rewrite activeNormals_tripod.
  change (Poly.offset tripodState) with 0.9.
  unfold SlabSpec.slab, tripod, SlabSpec.faces, SlabSpec.face.
  replace (Vector3.dot (mkVec3 0 0 1) (mkVec3 0 0 (-1))) with (-1)
    by (unfold Vector3.dot; simpl; ring).
  replace (Vector3.dot (mkVec3 0 0 1) (mkVec3 0 0 2e9)) with 2e9
    by (unfold Vector3.dot; simpl; ring).
  replace (Vector3.dot (mkVec3 1 0 0) (mkVec3 0 0 (-1))) with 0
    by (unfold Vector3.dot; simpl; ring).
  replace (Vector3.dot (mkVec3 1 0 0) (mkVec3 0 0 2e9)) with 0
    by (unfold Vector3.dot; simpl; ring).
  replace (Vector3.dot (mkVec3 0 1 0) (mkVec3 0 0 (-1))) with 0
    by (unfold Vector3.dot; simpl; ring).
  replace (Vector3.dot (mkVec3 0 1 0) (mkVec3 0 0 2e9)) with 0
    by (unfold Vector3.dot; simpl; ring).
  destruct (Rlt_dec (Rabs (-1)) 1e-6) as [H|_];
    [exfalso; revert H; apply Rabs_not_small; lra|].
  destruct (Rlt_dec (-1) 0) as [_|H]; [|lra].
  cbn [SlabSpec.tNear SlabSpec.tFar SlabSpec.enterFace SlabSpec.ext_lt].
  destruct (Rlt_dec 0 ((0.9 - 2e9) / -1)) as [_|H]; [|lra].
  cbn [SlabSpec.tNear SlabSpec.tFar SlabSpec.enterFace SlabSpec.ext_lt].
  destruct (Rlt_dec (Rabs 0) 1e-6) as [_|H];
    [|exfalso; apply H; apply Rabs_lt_small; lra].
  destruct (Rlt_dec (0.9 - 0) 0) as [H|_]; [lra|].
  cbn [SlabSpec.tNear SlabSpec.tFar SlabSpec.enterFace SlabSpec.ext_lt nth].
  replace ((0.9 - 2e9) / -1) with (2e9 - 0.9) by lra.
  reflexivity.
Qed.

(** C1 as stated fails.  The three-faced state is a polyhedron state; for
    the ray from (0, 0, 2e9) toward the origin the shader reports no hit,
    because the entry distance 2e9 - 0.9 exceeds the initial [tFar = 1e9],
    while the algorithm started from [tFar = +infinity] reports a hit of
    face 0 at that distance. *)
Lemma far_ray_counter :
  polyhedronState tripodState
  /\ outcome (Poly.intersectPoly tripodState (mkVec3 0 0 2e9) (mkVec3 0 0 (-1)))
     = SlabSpec.NoHit
  /\ SlabSpec.slab SlabSpec.PInf 1e-6 (Poly.offset tripodState)
       (activeNormals tripodState) (mkVec3 0 0 2e9) (mkVec3 0 0 (-1))
     = SlabSpec.HitAt (2e9 - 0.9) 0 (mkVec3 0 0 1) (mkVec3 0 0 0.9).
Proof.
  split; [exact tripodState_polyhedronState|]. split.
  - rewrite far_ray_code. reflexivity.
  - rewrite far_ray_spec. rewrite Rmax_left by lra.
    f_equal. apply vec3_eq; simpl; lra.
Qed.

(** *** A ray of the renderer *)

(** The scenario of the specification: seen from the camera at (0, 0, 3),
    the ray down -Z enters the three-faced solid through face 0, whose
    plane is at distance [offset = 0.9] from the centre, after 2.1. *)
Example camera_ray_hits_front_face :
  Poly.intersectPoly tripodState (mkVec3 0 0 3) (mkVec3 0 0 (-1))
  = Poly.mkHit true 2.1 0 (mkVec3 0 0 1) (mkVec3 0 0 0.9).
Proof.
  assert (D0 : GLSL.dot (mkVec3 0 0 1) (mkVec3 0 0 (-1)) = -1)
    by (unfold GLSL.dot, Vector3.dot; simpl; ring).
  assert (N0 : GLSL.dot (mkVec3 0 0 1) (mkVec3 0 0 3) = 3)
    by (unfold GLSL.dot, Vector3.dot; simpl; ring).
  assert (D1 : GLSL.dot (mkVec3 1 0 0) (mkVec3 0 0 (-1)) = 0)
    by (unfold GLSL.dot, Vector3.dot; simpl; ring).
  assert (N1 : GLSL.dot (mkVec3 1 0 0) (mkVec3 0 0 3) = 0)
    by (unfold GLSL.dot, Vector3.dot; simpl; ring).
  assert (D2 : GLSL.dot (mkVec3 0 1 0) (mkVec3 0 0 (-1)) = 0)
    by (unfold GLSL.dot, Vector3.dot; simpl; ring).
  assert (N2 : GLSL.dot (mkVec3 0 1 0) (mkVec3 0 0 3) = 0)
    by (unfold GLSL.dot, Vector3.dot; simpl; ring).
  unfold Poly.intersectPoly.
  change (Z.to_nat Poly.MAX_SEEDS) with (S (S (S (S 124)))).
  change (Poly.intersectLoop tripodState) with
    (Poly.intersectLoop
       (Poly.mkState (tripod ++ repeat (mkVec3 1 0 0) 125) 3 0.9
          (Matrix3.fromQuaternion Quaternion.identity) (Some tripod)
          Quaternion.identity None "")).
  (* face 0: entered at t = 2.1 *)
  rewrite intersectLoop_S.
  cbn [Poly.count Poly.rot Poly.offset Z.of_nat Z.geb Z.compare]. cbv zeta.
  rewrite mulMV_identity_rotation.
  change (Poly.seedAt _ 0) with (mkVec3 0 0 1). rewrite D0, N0.
  destruct (Rlt_dec (Rabs (-1)) 1e-6) as [H|_];
    [exfalso; revert H; apply Rabs_not_small; lra|].
  destruct (Rlt_dec (-1) 0.0) as [_|H]; [|lra].
  destruct (Rgt_dec ((0.9 - 3) / -1) 0.0) as [_|H]; [|lra].
  destruct (Rgt_dec ((0.9 - 3) / -1) 1e9) as [H|_]; [lra|].
  (* faces 1 and 2: parallel to the ray, its origin on their inner side *)
  rewrite intersectLoop_S.
  cbn [Poly.count Poly.rot Poly.offset Z.of_nat Pos.of_succ_nat Pos.succ
       Z.geb Z.compare Pos.compare Pos.compare_cont]. cbv zeta.
  rewrite mulMV_identity_rotation.
  change (Poly.seedAt _ 1) with (mkVec3 1 0 0). rewrite D1, N1.
  destruct (Rlt_dec (Rabs 0) 1e-6) as [_|H];
    [|exfalso; apply H, Rabs_lt_small; lra].
  destruct (Rlt_dec (0.9 - 0) 0.0) as [H|_]; [lra|].
  rewrite intersectLoop_S.
  cbn [Poly.count Poly.rot Poly.offset Z.of_nat Pos.of_succ_nat Pos.succ
       Z.geb Z.compare Pos.compare Pos.compare_cont]. cbv zeta.
  rewrite mulMV_identity_rotation.
  change (Poly.seedAt _ 2) with (mkVec3 0 1 0). rewrite D2, N2.
  destruct (Rlt_dec (Rabs 0) 1e-6) as [_|H];
    [|exfalso; apply H, Rabs_lt_small; lra].
  destruct (Rlt_dec (0.9 - 0) 0.0) as [H|_]; [lra|].
  (* i = 3 = count: break *)
  rewrite intersectLoop_S.
  cbn [Poly.count Z.of_nat Pos.of_succ_nat Pos.succ
       Z.geb Z.compare Pos.compare Pos.compare_cont].
  unfold Poly.finish.
  cbn [Poly.rot Z.of_nat Z.ltb Z.compare orb Z.to_nat].
  destruct (Rlt_dec 1e9 0.0) as [H|_]; [lra|]. cbv zeta.
  rewrite mulMV_identity_rotation. change (Poly.seedAt _ 0) with (mkVec3 0 0 1).
  rewrite GLSL_normalize_unit by (apply length_unit_iff; simpl; ring).
  rewrite Rmax_left by lra.
  f_equal; try lra; apply vec3_eq; simpl; lra.
Qed.

(** *** Rays that start inside the solid *)

Lemma intersectLoop_inside u ro rd :
  inside u ro ->
  forall fuel i tFar, Poly.intersectLoop u ro rd fuel i 0 tFar (-1) = Poly.noHit.
Proof.
  intros Hin. induction fuel as [|fuel IH]; intros i tFar.
  - reflexivity.
  - rewrite intersectLoop_S.
    destruct (Z.of_nat i >=? Poly.count u)%Z; [reflexivity|].
    cbv zeta.
    set (n := GLSL.mulMV (Poly.rot u) (Poly.seedAt u i)).
    specialize (Hin i). fold n in Hin.
    set (denom := GLSL.dot n rd).
    set (num := Poly.offset u - GLSL.dot n ro).
    assert (Hnum : 0 <= num) by (unfold num; lra).
    destruct (Rlt_dec (Rabs denom) 1e-6); [destruct (Rlt_dec num 0.0); auto|].
    destruct (Rlt_dec denom 0.0) as [Hd|Hd].
    + destruct (Rgt_dec (num / denom) 0) as [Ht|Ht].
      * exfalso. 
        assert (num / denom <= 0).
        { unfold Rdiv. assert (/ denom < 0) by (apply Rinv_lt_0_compat; lra). nra. }
        lra.
      * destruct (Rgt_dec 0 tFar); auto.
    + destruct (Rlt_dec (num / denom) tFar);
        match goal with |- context [Rgt_dec ?a ?b] => destruct (Rgt_dec a b) end; auto.
Qed.

Lemma intersectPoly_inside u ro rd :
  inside u ro -> Poly.intersectPoly u ro rd = Poly.noHit.
Proof.
  intros H. unfold Poly.intersectPoly. replace 0.0 with 0 by lra.
  apply intersectLoop_inside; assumption.
Qed.

Lemma origin_inside u : 0 <= Poly.offset u -> inside u vec3_zero.
Proof.
  intros H i. unfold GLSL.dot, Vector3.dot, vec3_zero; simpl. lra.
Qed.

(** C4 (amended).  For every polyhedron state, in particular every state
    the seed generator produces, a ray cast from the origin in the
    direction of an active seed's normal is reported as no hit by the
    intersector, as is a ray from the origin in any other direction: the
    origin satisfies every half-space, so no face is ever entered and
    [enterIdx] stays unset.  The ray does meet the plane of its own face
    at parameter exactly [offset], [num/denom = offset] for that face, but
    as an exit, which the intersector does not report. *)
Theorem origin_ray_reports_no_hit (u : Poly.State) (i : nat) :
  polyhedronState u ->
  (Z.of_nat i < Poly.count u)%Z ->
  let n := GLSL.mulMV (Poly.rot u) (Poly.seedAt u i) in
  Poly.intersectPoly u vec3_zero n = Poly.noHit
  /\ (Poly.offset u - GLSL.dot n vec3_zero) / GLSL.dot n n = Poly.offset u
  /\ (forall rd, Poly.intersectPoly u vec3_zero rd = Poly.noHit).
Proof.
  intros Hv Hi n.
  pose proof (polyhedronState_unitNormals u Hv i Hi) as Hn. fold n in Hn.
  assert (Ho : 0 <= Poly.offset u).
  { destruct Hv as (_ & _ & _ & _ & -> & _). unfold Poly.POLY_OFFSET. lra. }
  split; [apply intersectPoly_inside, origin_inside, Ho|].
  split; [|intros rd; apply intersectPoly_inside, origin_inside, Ho].
  apply length_unit_iff in Hn.
  assert (E1 : GLSL.dot n n = 1) by exact Hn.
  assert (E0 : GLSL.dot n vec3_zero = 0)
    by (unfold GLSL.dot, Vector3.dot, vec3_zero; simpl; ring).
  rewrite E1, E0. field.
Qed.

(** C4 (amended) on the booted thirteen-faced die, for its first seed. *)
Lemma origin_ray_reports_no_hit_witness :
  let n := GLSL.mulMV (Poly.rot d13) (Poly.seedAt d13 0) in
  Poly.intersectPoly d13 vec3_zero n = Poly.noHit
  /\ (Poly.offset d13 - GLSL.dot n vec3_zero) / GLSL.dot n n = Poly.offset d13
  /\ (forall rd, Poly.intersectPoly d13 vec3_zero rd = Poly.noHit).
Proof.
  apply (origin_ray_reports_no_hit d13 0); [exact d13_polyhedronState|reflexivity].
Defined.

(** C4 as stated fails: on the booted thirteen-faced die the ray from the
    origin along the first seed's normal does not hit ([ok] is false). *)
Lemma origin_ray_misses_own_face :
  Poly.boot 13 "" = Some d13
  /\ Poly.ok (Poly.intersectPoly d13 vec3_zero
                (GLSL.mulMV (Poly.rot d13) (Poly.seedAt d13 0))) = false.
Proof.
  split; [exact boot_d13|].
  rewrite intersectPoly_inside; [reflexivity|].
  apply origin_inside. simpl. unfold Poly.POLY_OFFSET. lra.
Qed.

(** ** Rolling *)

(** *** The target face *)

Lemma Poly_rollTo_wrap idx idx' now st :
  (forall dirs, Poly.seedDirs st = Some dirs ->
     wrapIndex idx (Z.of_nat (List.length dirs)) = wrapIndex idx' (Z.of_nat (List.length dirs))) ->
  Poly.rollTo idx now st = Poly.rollTo idx' now st.
Proof.
  intros H. unfold Poly.rollTo. destruct (Poly.seedDirs st) as [dirs|]; [|reflexivity].
  rewrite (H dirs eq_refl). reflexivity.
Qed.

Lemma Sphere_rollTo_wrap idx idx' now st :
  (forall dirs, Sphere.seedDirs st = Some dirs ->
     wrapIndex idx (Z.of_nat (List.length dirs)) = wrapIndex idx' (Z.of_nat (List.length dirs))) ->
  Sphere.rollTo idx now st = Sphere.rollTo idx' now st.
Proof.
  intros H. unfold Sphere.rollTo. destruct (Sphere.seedDirs st) as [dirs|]; [|reflexivity].
  rewrite (H dirs eq_refl). reflexivity.
Qed.

Lemma Poly_rollTo_result idx now st dirs :
  Poly.seedDirs st = Some dirs -> dirs <> [] ->
  Poly.result (Poly.rollTo idx now st)
  = resultText (wrapIndex idx (Z.of_nat (List.length dirs)) + 1) (Z.of_nat (List.length dirs)).
Proof.
  intros Hd Hne. unfold Poly.rollTo. rewrite Hd.
  destruct dirs; [congruence|]. reflexivity.
Qed.

Lemma targetDir_In idx dirs : dirs <> [] -> In (targetDir idx dirs) dirs.
Proof.
  intros H. unfold targetDir. apply nth_In.
  assert (0 < List.length dirs)%nat by (destruct dirs; simpl; [congruence|lia]).
  pose proof (wrapIndex_range idx (Z.of_nat (List.length dirs)) ltac:(lia)). lia.
Qed.

Lemma Poly_rollTo_anim_end idx now st dirs :
  Poly.seedDirs st = Some dirs -> dirs <> [] ->
  Poly.anim (Poly.rollTo idx now st)
  = Some (Poly.mkAnim (Poly.rotQ st)
            (Quaternion.multiply
               (Quaternion.setFromUnitVectors
                  (Vector3.normalize
                     (Vector3.applyQuaternion (targetDir idx dirs) (Poly.rotQ st)))
                  Poly.zWorld)
               (Poly.rotQ st))
            now Poly.DURATION_MS).
Proof.
  intros Hd Hne. unfold Poly.rollTo. rewrite Hd.
  destruct dirs; [congruence|]. reflexivity.
Qed.

Lemma Poly_rollTo_anim idx now st dirs :
  Poly.seedDirs st = Some dirs -> dirs <> [] ->
  exists endQ,
    Poly.anim (Poly.rollTo idx now st)
    = Some (Poly.mkAnim (Poly.rotQ st) endQ now Poly.DURATION_MS).
Proof.
  intros Hd Hne. unfold Poly.rollTo. rewrite Hd.
  destruct dirs; [congruence|]. eexists. reflexivity.
Qed.

(** C7 (amended).  In both variants, for every integer [idx] and every
    state whose stored directions are its [count >= 3] active faces, the
    target face index [rollTo(idx)] uses is [idx | 0], that is [idx]
    reduced to a signed 32-bit integer, reduced modulo [count] into
    [0, count), negative values wrapping; it is the face the readout
    names, and rolling to that index is the same roll.  For [idx] within
    the 32-bit range it is [idx] modulo [count], and when [idx + count]
    is within that range too, [rollTo(idx)] and [rollTo(idx + count)]
    select the same target face. *)
Theorem rollTo_wraps_int32 (idx : Z) (now : R)
        (ps : Poly.State) (ss : Sphere.State) (pdirs sdirs : list vec3) :
  Poly.seedDirs ps = Some pdirs -> Z.of_nat (List.length pdirs) = Poly.count ps ->
  (3 <= Poly.count ps <= Poly.MAX_SEEDS)%Z ->
  Sphere.seedDirs ss = Some sdirs -> Z.of_nat (List.length sdirs) = Sphere.count ss ->
  (3 <= Sphere.count ss <= Sphere.MAX_SEEDS)%Z ->
  let k := wrapIndex idx (Poly.count ps) in
  k = (toInt32 idx mod Poly.count ps)%Z
  /\ (0 <= k < Poly.count ps)%Z
  /\ Poly.result (Poly.rollTo idx now ps) = resultText (k + 1) (Poly.count ps)
  /\ Poly.rollTo k now ps = Poly.rollTo idx now ps
  /\ Sphere.rollTo (wrapIndex idx (Sphere.count ss)) now ss = Sphere.rollTo idx now ss
  /\ ((-2147483648 <= idx < 2147483648)%Z ->
      k = (idx mod Poly.count ps)%Z
      /\ wrapIndex idx (Sphere.count ss) = (idx mod Sphere.count ss)%Z)
  /\ ((-2147483648 <= idx)%Z ->
      (idx + Poly.count ps < 2147483648)%Z ->
      Poly.rollTo (idx + Poly.count ps) now ps = Poly.rollTo idx now ps)
  /\ ((-2147483648 <= idx)%Z ->
      (idx + Sphere.count ss < 2147483648)%Z ->
      Sphere.rollTo (idx + Sphere.count ss) now ss = Sphere.rollTo idx now ss).
Proof.
  intros Hpd Hpl Hpc Hsd Hsl Hsc k.
  unfold Poly.MAX_SEEDS in Hpc. unfold Sphere.MAX_SEEDS in Hsc.
  split; [apply wrapIndex_mod; lia|].
  split; [apply wrapIndex_range; lia|].
  split.
  { rewrite (Poly_rollTo_result idx now ps pdirs Hpd).
    - rewrite Hpl. reflexivity.
    - intros ->. simpl in Hpl. lia. }
  split.
  { apply Poly_rollTo_wrap. intros dirs Hd. rewrite Hpd in Hd. injection Hd as <-.
    rewrite Hpl. apply wrapIndex_idem. lia. }
  split.
  { apply Sphere_rollTo_wrap. intros dirs Hd. rewrite Hsd in Hd. injection Hd as <-.
    rewrite Hsl. apply wrapIndex_idem. lia. }
  split.
  { intros Hr. unfold k. rewrite !wrapIndex_mod by lia. now rewrite toInt32_id. }
  split.
  - intros Hlo Hhi. apply Poly_rollTo_wrap. intros dirs Hd.
    rewrite Hpd in Hd. injection Hd as <-. rewrite Hpl. apply wrapIndex_shift; lia.
  - intros Hlo Hhi. apply Sphere_rollTo_wrap. intros dirs Hd.
    rewrite Hsd in Hd. injection Hd as <-. rewrite Hsl. apply wrapIndex_shift; lia.
Qed.

Lemma d13_dirs :
  Poly.seedDirs d13 = Some (fibonacciSeeds 13)
  /\ Z.of_nat (List.length (fibonacciSeeds 13)) = Poly.count d13
  /\ (3 <= Poly.count d13 <= Poly.MAX_SEEDS)%Z.
Proof. repeat split; discriminate. Qed.

Lemma s37_dirs :
  Sphere.seedDirs s37 = Some (fibonacciSeeds 37)
  /\ Z.of_nat (List.length (fibonacciSeeds 37)) = Sphere.count s37
  /\ (3 <= Sphere.count s37 <= Sphere.MAX_SEEDS)%Z.
Proof. repeat split; discriminate. Qed.

(** C7 (amended) at [rollTo(-1)] on the two booted pages: the index wraps
    to the last face. *)
Lemma rollTo_wraps_int32_witness :
  wrapIndex (-1) (Poly.count d13) = 12%Z
  /\ Poly.rollTo (-1 + Poly.count d13) 0 d13 = Poly.rollTo (-1) 0 d13
  /\ Sphere.rollTo (-1 + Sphere.count s37) 0 s37 = Sphere.rollTo (-1) 0 s37.
Proof.
  destruct d13_dirs as (Hp1 & Hp2 & Hp3). destruct s37_dirs as (Hs1 & Hs2 & Hs3).
  destruct (rollTo_wraps_int32 (-1) 0 d13 s37 _ _ Hp1 Hp2 Hp3 Hs1 Hs2 Hs3)
    as (H1 & _ & _ & _ & _ & _ & H7 & H8).
  split; [reflexivity|].
  split; [apply H7|apply H8]; simpl; lia.
Defined.

(** C7 as stated fails on the booted thirteen-faced die: [rollTo(2147483647)]
    selects face 11 and [rollTo(2147483647 + 13)] selects face 2, and
    [rollTo(4294967296)] uses index 0 where 4294967296 modulo 13 is 9. *)
Lemma rollTo_shift_wraps_differently :
  Poly.result (Poly.rollTo 2147483647 0 d13) = "Result: 11 / d13"%string
  /\ Poly.result (Poly.rollTo (2147483647 + Poly.count d13) 0 d13)
     = "Result: 2 / d13"%string
  /\ wrapIndex 4294967296 (Poly.count d13) = 0%Z
  /\ (4294967296 mod Poly.count d13 = 9)%Z.
Proof. repeat split; reflexivity. Qed.

(** *** Rolling before any seeds exist *)

(** C9.  In both variants, if [rollTo] is called while the stored
    seed-direction list is absent or empty, it returns at once and leaves
    the whole state as it was: no animation is started, and the
    orientation, the animation state and the result text are unchanged. *)
Theorem rollTo_without_seeds (idx : Z) (now : R) (ps : Poly.State) (ss : Sphere.State) :
  Poly.seedDirs ps = None \/ Poly.seedDirs ps = Some [] ->
  Sphere.seedDirs ss = None \/ Sphere.seedDirs ss = Some [] ->
  Poly.rollTo idx now ps = ps /\ Sphere.rollTo idx now ss = ss.
Proof.
  intros [Hp|Hp] [Hs|Hs]; unfold Poly.rollTo, Sphere.rollTo; rewrite Hp, Hs;
    split; reflexivity.
Qed.

(** C9 on the two pages as built, before [setSeeds] has run. *)
Lemma rollTo_without_seeds_witness :
  Poly.rollTo 5 0 (Poly.init "") = Poly.init ""
  /\ Sphere.rollTo 5 0 (Sphere.init "") = Sphere.init "".
Proof.
  apply rollTo_without_seeds; left; reflexivity.
Defined.

(** *** What a roll request and a frame leave untouched *)

Lemma Poly_rollTo_frame idx now st :
  let r := Poly.rollTo idx now st in
  Poly.seeds r = Poly.seeds st /\ Poly.count r = Poly.count st
  /\ Poly.offset r = Poly.offset st /\ Poly.rot r = Poly.rot st
  /\ Poly.seedDirs r = Poly.seedDirs st /\ Poly.rotQ r = Poly.rotQ st.
Proof.
  unfold Poly.rollTo. destruct (Poly.seedDirs st) as [dirs|] eqn:E.
  - destruct (List.length dirs =? 0)%nat; simpl; rewrite ?E; repeat split; reflexivity.
  - simpl. rewrite E. repeat split; reflexivity.
Qed.

Lemma Poly_render_frame now st :
  let f := Poly.render now st in
  Poly.seeds f = Poly.seeds st /\ Poly.count f = Poly.count st
  /\ Poly.offset f = Poly.offset st
  /\ Poly.seedDirs f = Poly.seedDirs st /\ Poly.result f = Poly.result st.
Proof.
  unfold Poly.render. destruct (Poly.anim st) as [a|].
  - destruct (Rge_dec _ _); simpl; repeat split; reflexivity.
  - simpl. repeat split; reflexivity.
Qed.

Lemma Poly_renders_frame ts : forall st,
  let f := Poly.renders ts st in
  Poly.seeds f = Poly.seeds st /\ Poly.count f = Poly.count st
  /\ Poly.offset f = Poly.offset st
  /\ Poly.seedDirs f = Poly.seedDirs st /\ Poly.result f = Poly.result st.
Proof.
  induction ts as [|now ts IH]; intros st; simpl.
  - repeat split; reflexivity.
  - destruct (IH (Poly.render now st)) as (H1 & H2 & H3 & H4 & H5).
    destruct (Poly_render_frame now st) as (G1 & G2 & G3 & G4 & G5).
    unfold Poly.renders in *. simpl.
    rewrite H1, H2, H3, H4, H5. repeat split; assumption.
Qed.

(** C10 (amended).  Neither [rollTo] nor the per-frame animation step
    modifies the stored seed directions, the uniform seed array or the
    active face count (nor the offset): for every call with any index
    and every sequence of frames they are the same after as before.
    [rollTo] changes only the animation state and the result text; it
    leaves the orientation and its [rot] uniform alone.  The frame step
    changes only the orientation, its [rot] uniform and the animation
    state; it leaves the result text alone. *)
Theorem roll_and_frames_keep_seeds (idx : Z) (now : R) (ts : list R) (st : Poly.State) :
  let r := Poly.rollTo idx now st in
  let f := Poly.renders ts st in
  (Poly.seeds r = Poly.seeds st /\ Poly.count r = Poly.count st
   /\ Poly.offset r = Poly.offset st /\ Poly.rot r = Poly.rot st
   /\ Poly.seedDirs r = Poly.seedDirs st /\ Poly.rotQ r = Poly.rotQ st)
  /\ (Poly.seeds f = Poly.seeds st /\ Poly.count f = Poly.count st
      /\ Poly.offset f = Poly.offset st
      /\ Poly.seedDirs f = Poly.seedDirs st /\ Poly.result f = Poly.result st).
Proof.
  split; [apply Poly_rollTo_frame | apply Poly_renders_frame].
Qed.

(** C10 as stated fails: on the booted thirteen-faced die [rollTo(0)]
    changes the result text, which is neither the orientation nor the
    animation state. *)
Lemma rollTo_writes_result :
  Poly.result (Poly.rollTo 0 0 d13) = "Result: 1 / d13"%string
  /\ Poly.result d13 = ""%string.
Proof. split; reflexivity. Qed.

(** *** The readout *)

Lemma Sphere_tick_frame k now st :
  let s := Sphere.tick k now st in
  Sphere.seeds s = Sphere.seeds st /\ Sphere.count s = Sphere.count st
  /\ Sphere.seedDirs s = Sphere.seedDirs st
  /\ Sphere.timers s = Sphere.timers st /\ Sphere.result s = Sphere.result st.
Proof.
  unfold Sphere.tick. destruct (Rlt_dec _ _); simpl; repeat split; reflexivity.
Qed.

Lemma Sphere_ticks_frame now (fs : list (Z * Sphere.Tick)) : forall st,
  let s := fold_left (fun s f => Sphere.tick (snd f) now s) fs st in
  Sphere.seeds s = Sphere.seeds st /\ Sphere.count s = Sphere.count st
  /\ Sphere.seedDirs s = Sphere.seedDirs st
  /\ Sphere.timers s = Sphere.timers st /\ Sphere.result s = Sphere.result st.
Proof.
  induction fs as [|f fs IH]; intros st; simpl.
  - repeat split; reflexivity.
  - destruct (IH (Sphere.tick (snd f) now st)) as (H1 & H2 & H3 & H4 & H5).
    destruct (Sphere_tick_frame (snd f) now st) as (G1 & G2 & G3 & G4 & G5).
    rewrite H1, H2, H3, H4, H5. repeat split; assumption.
Qed.

Lemma Sphere_runFrame_frame now st :
  let s := Sphere.runFrame now st in
  Sphere.seeds s = Sphere.seeds st /\ Sphere.count s = Sphere.count st
  /\ Sphere.seedDirs s = Sphere.seedDirs st
  /\ Sphere.timers s = Sphere.timers st /\ Sphere.result s = Sphere.result st.
Proof.
  unfold Sphere.runFrame. set (s0 := Sphere.mkState _ _ _ _ _ _ _ _ _).
  exact (Sphere_ticks_frame now (Sphere.frames st) s0).
Qed.

Lemma Sphere_runFrames_frame ts : forall st,
  let s := runFrames ts st in
  Sphere.seeds s = Sphere.seeds st /\ Sphere.count s = Sphere.count st
  /\ Sphere.seedDirs s = Sphere.seedDirs st
  /\ Sphere.timers s = Sphere.timers st /\ Sphere.result s = Sphere.result st.
Proof.
  induction ts as [|now ts IH]; intros st; simpl.
  - repeat split; reflexivity.
  - destruct (IH (Sphere.runFrame now st)) as (H1 & H2 & H3 & H4 & H5).
    destruct (Sphere_runFrame_frame now st) as (G1 & G2 & G3 & G4 & G5).
    unfold runFrames in *. simpl.
    rewrite H1, H2, H3, H4, H5. repeat split; assumption.
Qed.

Lemma Sphere_rollTo_readout idx now st dirs :
  Sphere.seedDirs st = Some dirs -> dirs <> [] ->
  let len := Z.of_nat (List.length dirs) in
  Sphere.result (Sphere.rollTo idx now st) = Sphere.result st
  /\ Sphere.timers (Sphere.rollTo idx now st)
     = Sphere.timers st
         ++ [(now + Sphere.DURATION_MS * 0.9, resultText (wrapIndex idx len + 1) len)].
Proof.
  intros Hd Hne len. unfold Sphere.rollTo. rewrite Hd.
  destruct dirs as [|d dirs]; [congruence|].
  cbv zeta. cbn [List.length Nat.eqb]. unfold Sphere.tick.
  destruct (Rlt_dec _ _); split; reflexivity.
Qed.

Lemma Sphere_runTimers_one now due txt st :
  Sphere.timers st = [(due, txt)] ->
  Sphere.result (Sphere.runTimers now st)
  = if Rle_dec due now then txt else Sphere.result st.
Proof.
  intros H. unfold Sphere.runTimers. rewrite H. simpl.
  destruct (Rle_dec due now); reflexivity.
Qed.

Lemma Poly_readout_held idx now ts st dirs :
  Poly.seedDirs st = Some dirs -> dirs <> [] ->
  let len := Z.of_nat (List.length dirs) in
  Poly.result (Poly.renders ts (Poly.rollTo idx now st))
  = resultText (wrapIndex idx len + 1) len.
Proof.
  intros Hd Hne len.
  destruct (Poly_renders_frame ts (Poly.rollTo idx now st)) as (_ & _ & _ & _ & Hr).
  rewrite Hr. apply Poly_rollTo_result; assumption.
Qed.

(** C5 (amended).  The readout "Result: k / dn", with [k] the 1-based
    target face index and [n] the number of stored directions, is
    published as follows.  In the polyhedron variant [rollTo] itself
    writes it, at the start of the roll, and no frame changes it
    afterwards, the completing frame included.  In the sphere variant
    [rollTo] leaves the readout as it was and queues it for
    [0.9 * DURATION_MS] after the call: with no earlier readout pending,
    frames never change the text, and a timer task that runs before that
    time leaves it, while one that runs at or after that time writes it. *)
Theorem readout_published_by_rollTo
        (idx : Z) (now : R) (ps : Poly.State) (ss : Sphere.State)
        (pdirs sdirs : list vec3) :
  Poly.seedDirs ps = Some pdirs -> pdirs <> [] ->
  Sphere.seedDirs ss = Some sdirs -> sdirs <> [] -> Sphere.timers ss = [] ->
  let pn := Z.of_nat (List.length pdirs) in
  let sn := Z.of_nat (List.length sdirs) in
  (forall ts, Poly.result (Poly.renders ts (Poly.rollTo idx now ps))
              = resultText (wrapIndex idx pn + 1) pn)
  /\ (forall ts now',
        Sphere.result (Sphere.runTimers now' (runFrames ts (Sphere.rollTo idx now ss)))
        = if Rle_dec (now + Sphere.DURATION_MS * 0.9) now'
          then resultText (wrapIndex idx sn + 1) sn
          else Sphere.result ss)
  /\ (forall ts, Sphere.result (runFrames ts (Sphere.rollTo idx now ss)) = Sphere.result ss).
Proof.
  intros Hpd Hpn Hsd Hsn Htm pn sn.
  destruct (Sphere_rollTo_readout idx now ss sdirs Hsd Hsn) as (Hr & Ht).
  rewrite Htm in Ht. simpl in Ht.
  split; [intros ts; apply Poly_readout_held; assumption|].
  split.
  - intros ts now'.
    destruct (Sphere_runFrames_frame ts (Sphere.rollTo idx now ss)) as (_ & _ & _ & Ht' & Hr').
    rewrite (Sphere_runTimers_one now' _ _ _ (eq_trans Ht' Ht)).
    rewrite Hr', Hr. reflexivity.
  - intros ts.
    destruct (Sphere_runFrames_frame ts (Sphere.rollTo idx now ss)) as (_ & _ & _ & _ & Hr').
    now rewrite Hr'.
Qed.

(** C5 (amended) at [rollTo(0)] on the two booted pages. *)
Lemma readout_published_by_rollTo_witness :
  Poly.result (Poly.renders [450; 900] (Poly.rollTo 0 0 d13))
  = "Result: 1 / d13"%string
  /\ Sphere.result (Sphere.runTimers 899 (runFrames [450] (Sphere.rollTo 0 0 s37)))
     = ""%string
  /\ Sphere.result (Sphere.runTimers 900 (runFrames [450] (Sphere.rollTo 0 0 s37)))
     = "Result: 1 / d37"%string.
Proof.
  destruct (readout_published_by_rollTo 0 0 d13 s37
              (fibonacciSeeds 13) (fibonacciSeeds 37))
    as (H1 & H2 & _); try reflexivity; try discriminate.
  split; [rewrite H1; reflexivity|].
  split; rewrite H2; unfold Sphere.DURATION_MS.
  - destruct (Rle_dec (0 + 1000 * 0.9) 899); [lra|reflexivity].
  - destruct (Rle_dec (0 + 1000 * 0.9) 900); [reflexivity|lra].
Defined.

(** C5 as stated fails: on the booted thirteen-faced die the readout is
    there as soon as [rollTo(0)] returns, while the animation it started
    is at elapsed fraction 0. *)
Lemma rollTo_publishes_at_start :
  Poly.result (Poly.rollTo 0 0 d13) = "Result: 1 / d13"%string
  /\ exists a, Poly.anim (Poly.rollTo 0 0 d13) = Some a
               /\ Rmin 1 ((0 - Poly.startTime a) / Poly.dur a) = 0.
Proof.
  split; [reflexivity|].
  eexists. split; [reflexivity|]. simpl.
  replace ((0 - 0) / Poly.DURATION_MS) with 0 by (unfold Poly.DURATION_MS; lra).
  apply Rmin_right. lra.
Qed.

(** *** A roll requested while another is running *)

Lemma Poly_render_running now st a :
  Poly.anim st = Some a ->
  Rmin 1 ((now - Poly.startTime a) / Poly.dur a) < 1 ->
  Poly.anim (Poly.render now st) = Some a
  /\ Poly.rotQ (Poly.render now st)
     = Quaternion.slerp (Poly.startQ a) (Poly.endQ a)
         (1 - (1 - Rmin 1 ((now - Poly.startTime a) / Poly.dur a)) ^ 3).
Proof.
  intros Ha Ht. unfold Poly.render. rewrite Ha. cbv zeta.
  destruct (Rge_dec _ 1) as [H|H]; [lra|]. split; reflexivity.
Qed.

Lemma Sphere_tick_start k now st :
  now = Sphere.startTime k ->
  Sphere.tick k now st
  = Sphere.mkState (Sphere.seeds st) (Sphere.count st) (Sphere.seedDirs st)
      (Sphere.start k) (Some (Sphere.nextHandle st))
      (Sphere.frames st ++ [(Sphere.nextHandle st, k)])
      (Sphere.nextHandle st + 1)%Z (Sphere.timers st) (Sphere.result st).
Proof.
  intros ->. unfold Sphere.tick, Sphere.easeOutCubic.
  replace ((Sphere.startTime k - Sphere.startTime k) / Sphere.DURATION_MS) with 0
    by (unfold Sphere.DURATION_MS; lra).
  rewrite Rmin_right by lra.
  replace (1 - (1 - 0) ^ 3) with 0 by ring.
  destruct (Rlt_dec 0 1); [|lra].
  unfold Quaternion.slerp. destruct (Req_dec_T 0 0); [reflexivity|lra].
Qed.

Lemma Sphere_tick_running k now st :
  Sphere.easeOutCubic (Rmin 1 ((now - Sphere.startTime k) / Sphere.DURATION_MS)) < 1 ->
  Sphere.anim (Sphere.tick k now st) = Some (Sphere.nextHandle st)
  /\ Sphere.frames (Sphere.tick k now st) = Sphere.frames st ++ [(Sphere.nextHandle st, k)]
  /\ Sphere.quaternion (Sphere.tick k now st)
     = Quaternion.slerp (Sphere.start k) (Sphere.end_ k)
         (Sphere.easeOutCubic (Rmin 1 ((now - Sphere.startTime k) / Sphere.DURATION_MS))).
Proof.
  intros H. unfold Sphere.tick. destruct (Rlt_dec _ 1); [|lra].
  repeat split; reflexivity.
Qed.

(** C8.  In both variants, if [rollTo] is called while a previous roll is
    still in progress (its last frame was at elapsed fraction below 1),
    the new animation replaces the old one wholesale and starts from the
    current interpolated orientation, the one that last frame wrote, not
    from the start orientation of the previous animation.  Polyhedron
    variant: the new [anim] starts at [rotQ], and the state after the
    call is the one the call gives when no animation is running.  Sphere
    variant: the pending frame callback of the old roll is cancelled, the
    only pending callback is the new [tick], whose [start] is
    [sphere.quaternion], and [anim] holds its handle. *)
Theorem rollTo_replaces_running_roll
        (idx : Z) (now0 now : R)
        (ps : Poly.State) (a0 : Poly.Anim) (pdirs : list vec3)
        (ss : Sphere.State) (k0 : Sphere.Tick) (sdirs : list vec3) :
  Poly.anim ps = Some a0 -> Poly.seedDirs ps = Some pdirs -> pdirs <> [] ->
  Rmin 1 ((now0 - Poly.startTime a0) / Poly.dur a0) < 1 ->
  Sphere.frames ss = [] -> Sphere.seedDirs ss = Some sdirs -> sdirs <> [] ->
  Sphere.easeOutCubic (Rmin 1 ((now0 - Sphere.startTime k0) / Sphere.DURATION_MS)) < 1 ->
  let p1 := Poly.render now0 ps in
  let s1 := Sphere.tick k0 now0 ss in
  let qp := Quaternion.slerp (Poly.startQ a0) (Poly.endQ a0)
              (1 - (1 - Rmin 1 ((now0 - Poly.startTime a0) / Poly.dur a0)) ^ 3) in
  let qs := Quaternion.slerp (Sphere.start k0) (Sphere.end_ k0)
              (Sphere.easeOutCubic
                 (Rmin 1 ((now0 - Sphere.startTime k0) / Sphere.DURATION_MS))) in
  (Poly.anim p1 = Some a0
   /\ Poly.rotQ p1 = qp
   /\ (exists endQ, Poly.anim (Poly.rollTo idx now p1)
                    = Some (Poly.mkAnim qp endQ now Poly.DURATION_MS))
   /\ Poly.rollTo idx now p1 = Poly.rollTo idx now (withoutAnim p1))
  /\ (Sphere.frames s1 = [(Sphere.nextHandle ss, k0)]
      /\ Sphere.anim s1 = Some (Sphere.nextHandle ss)
      /\ Sphere.quaternion s1 = qs
      /\ (exists end_, Sphere.frames (Sphere.rollTo idx now s1)
                       = [(Sphere.nextHandle s1, Sphere.mkTick qs end_ now)])
      /\ Sphere.anim (Sphere.rollTo idx now s1) = Some (Sphere.nextHandle s1)
      /\ Sphere.quaternion (Sphere.rollTo idx now s1) = qs).
Proof.
  intros Ha Hpd Hpn Ht Hf Hsd Hsn Hs p1 s1 qp qs. split.
  - destruct (Poly_render_running now0 ps a0 Ha Ht) as (H1 & H2).
    destruct (Poly_render_frame now0 ps) as (_ & _ & _ & Hd & _).
    fold p1 in H1, H2, Hd. rewrite Hpd in Hd.
    split; [exact H1|]. split; [exact H2|]. split.
    + destruct (Poly_rollTo_anim idx now p1 pdirs Hd Hpn) as [e He].
      exists e. rewrite He, H2. reflexivity.
    + unfold Poly.rollTo, withoutAnim. simpl. rewrite Hd.
      destruct pdirs; [congruence|]. reflexivity.
  - destruct (Sphere_tick_running k0 now0 ss Hs) as (H1 & H2 & H3).
    destruct (Sphere_tick_frame k0 now0 ss) as (_ & _ & Hd & _ & _).
    fold s1 in H1, H2, H3, Hd. rewrite Hf in H2. simpl in H2. rewrite Hsd in Hd.
    split; [exact H2|]. split; [exact H1|]. split; [exact H3|].
    unfold Sphere.rollTo. rewrite Hd.
    destruct sdirs as [|d sdirs]; [congruence|].
    cbv zeta. cbn [List.length Nat.eqb].
    rewrite Sphere_tick_start by reflexivity.
    cbn [Sphere.frames Sphere.anim Sphere.quaternion Sphere.nextHandle
         Sphere.start Sphere.seeds Sphere.count Sphere.seedDirs Sphere.timers
         Sphere.result].
    rewrite H1, H2. cbn [Sphere.cancelAnimationFrame filter fst].
    rewrite Z.eqb_refl. cbn [negb app].
    rewrite H3. split; [eexists; reflexivity|]. split; reflexivity.
Qed.

Lemma half_way_lt_1 d : 0 < d -> 450 < d -> Rmin 1 ((450 - 0) / d) < 1.
Proof.
  intros Hd H. assert (Hx : (450 - 0) / d < 1).
  { unfold Rdiv. pose proof (Rinv_0_lt_compat _ Hd).
    assert (d * / d = 1) by (apply Rinv_r; lra). nra. }
  rewrite Rmin_right; lra.
Qed.

(** C8 on the two booted pages: a roll to face 0 at time 0, a frame at
    time 450, then a roll to face 1. *)
Lemma rollTo_replaces_running_roll_witness :
  let p1 := Poly.render 450 (Poly.rollTo 0 0 d13) in
  let s1 := Sphere.tick (Sphere.mkTick Quaternion.identity Quaternion.identity 0)
                        450 s37 in
  (exists endQ,
      Poly.anim (Poly.rollTo 1 450 p1)
      = Some (Poly.mkAnim (Poly.rotQ p1) endQ 450 Poly.DURATION_MS))
  /\ (exists end_,
         Sphere.frames (Sphere.rollTo 1 450 s1)
         = [(Sphere.nextHandle s1, Sphere.mkTick (Sphere.quaternion s1) end_ 450)]).
Proof.
  intros p1 s1.
  destruct (Poly_rollTo_anim 0 0 d13 (fibonacciSeeds 13) eq_refl) as [e0 He0];
    [discriminate|].
  destruct (rollTo_replaces_running_roll 1 450 450
              (Poly.rollTo 0 0 d13) _ (fibonacciSeeds 13)
              s37 (Sphere.mkTick Quaternion.identity Quaternion.identity 0)
              (fibonacciSeeds 37) He0)
    as ((_ & Hq & [e He] & _) & (_ & _ & Hs & [e' He'] & _ & _)).
  - reflexivity.
  - discriminate.
  - apply half_way_lt_1; unfold Poly.DURATION_MS; simpl; lra.
  - reflexivity.
  - reflexivity.
  - discriminate.
  - unfold Sphere.easeOutCubic. simpl Sphere.startTime.
    unfold Sphere.DURATION_MS in *.
    assert (Hm : Rmin 1 ((450 - 0) / 1000) = 0.45).
    { rewrite Rmin_right; lra. }
    rewrite Hm. lra.
  - split.
    + exists e. fold p1 in He, Hq. rewrite He, Hq. reflexivity.
    + exists e'. fold s1 in He', Hs. rewrite He', Hs. reflexivity.
Defined.

(** *** Frames until the roll completes *)

Lemma Poly_render_idle now st : Poly.anim st = None -> Poly.render now st = st.
Proof. intros H. unfold Poly.render. now rewrite H. Qed.

Lemma Poly_renders_idle ts : forall st, Poly.anim st = None -> Poly.renders ts st = st.
Proof.
  induction ts as [|now ts IH]; intros st H; [reflexivity|].
  unfold Poly.renders in *. simpl. rewrite Poly_render_idle by assumption. now apply IH.
Qed.

Lemma Poly_render_done now st a :
  Poly.anim st = Some a -> 0 < Poly.dur a -> Poly.startTime a + Poly.dur a <= now ->
  Poly.anim (Poly.render now st) = None
  /\ Poly.rotQ (Poly.render now st) = Poly.endQ a.
Proof.
  intros Ha Hd Ht. unfold Poly.render. rewrite Ha. cbv zeta.
  assert (Hx : 1 <= (now - Poly.startTime a) / Poly.dur a).
  { unfold Rdiv. pose proof (Rinv_0_lt_compat _ Hd) as Hi.
    assert (Poly.dur a * / Poly.dur a = 1) by (apply Rinv_r; lra). nra. }
  rewrite Rmin_left by assumption.
  destruct (Rge_dec 1 1) as [_|H]; [|lra].
  split; [reflexivity|]. simpl.
  replace (1 - (1 - 1) * ((1 - 1) * ((1 - 1) * 1))) with 1 by ring.
  unfold Quaternion.slerp.
  destruct (Req_dec_T 1 0); [lra|]. destruct (Req_dec_T 1 1); [reflexivity|lra].
Qed.

Lemma Poly_render_early now st a :
  Poly.anim st = Some a -> 0 < Poly.dur a -> now < Poly.startTime a + Poly.dur a ->
  Poly.anim (Poly.render now st) = Some a.
Proof.
  intros Ha Hd Ht.
  apply (Poly_render_running now st a Ha).
  assert (Hx : (now - Poly.startTime a) / Poly.dur a < 1).
  { unfold Rdiv. pose proof (Rinv_0_lt_compat _ Hd) as Hi.
    assert (Poly.dur a * / Poly.dur a = 1) by (apply Rinv_r; lra). nra. }
  rewrite Rmin_right; lra.
Qed.

Lemma Poly_renders_complete ts : forall st a,
  Poly.anim st = Some a -> 0 < Poly.dur a ->
  Exists (fun now => Poly.startTime a + Poly.dur a <= now) ts ->
  Poly.anim (Poly.renders ts st) = None
  /\ Poly.rotQ (Poly.renders ts st) = Poly.endQ a.
Proof.
  induction ts as [|now ts IH]; intros st a Ha Hd Hex.
  - inversion Hex.
  - change (Poly.renders (now :: ts) st) with (Poly.renders ts (Poly.render now st)).
    destruct (Rle_dec (Poly.startTime a + Poly.dur a) now) as [Hl|Hl].
    + destruct (Poly_render_done now st a Ha Hd Hl) as (H1 & H2).
      rewrite Poly_renders_idle by assumption. now split.
    + apply IH; [apply Poly_render_early; [assumption|assumption|lra]|assumption|].
      inversion Hex; subst; [lra|assumption].
Qed.

Lemma renders_polyhedronState ts : forall st,
  polyhedronState st -> polyhedronState (Poly.renders ts st).
Proof.
  induction ts as [|now ts IH]; intros st H; [exact H|].
  apply (IH (Poly.render now st)). now apply render_polyhedronState.
Qed.

(** C2.  Let [rollTo(idx)] be called at time [now] in a polyhedron state and
    let frames follow, one of them at or after [now + DURATION_MS], so
    that the elapsed fraction [t] has reached 1.  Then the animation state
    is cleared; the orientation is exactly the end orientation [rollTo]
    computed, and later frames leave the state as it is; and that
    orientation applied to the target face's seed direction, as
    [applyQuaternion] does and as the shader's [rot * seeds[k]] does, is
    the toward-viewer axis (0, 0, 1) within tolerance: the squared
    distance is at most [2 * Number.EPSILON], and it is exactly
    (0, 0, 1) unless the face started within [Number.EPSILON] of
    pointing straight away from the viewer. *)
Theorem completed_roll_faces_viewer
        (idx : Z) (now : R) (ts : list R) (st : Poly.State) :
  polyhedronState st ->
  Exists (fun now' => now + Poly.DURATION_MS <= now') ts ->
  let seed := Poly.seedAt st (Z.to_nat (wrapIndex idx (Poly.count st))) in
  let rolled := Poly.rollTo idx now st in
  let done := Poly.renders ts rolled in
  Poly.anim done = None
  /\ (exists a, Poly.anim rolled = Some a /\ Poly.rotQ done = Poly.endQ a)
  /\ (forall ts', Poly.renders ts' done = done)
  /\ dist2 (Vector3.applyQuaternion seed (Poly.rotQ done)) Poly.zWorld <= 2 * EPSILON
  /\ dist2 (GLSL.mulMV (Poly.rot done) seed) Poly.zWorld <= 2 * EPSILON
  /\ (EPSILON
      <= Vector3.dot (Vector3.applyQuaternion seed (Poly.rotQ st)) Poly.zWorld + 1 ->
      Vector3.applyQuaternion seed (Poly.rotQ done) = Poly.zWorld).
Proof.
  intros Hv Hex seed rolled done.
  destruct (polyhedronState_dirs st Hv) as (dirs & Hd & Hne & Hlen & Hu & Hnth).
  assert (Hseed : targetDir idx dirs = seed).
  { unfold targetDir, seed. rewrite Hlen. apply Hnth.
    destruct Hv as (_ & Hc & _).
    pose proof (wrapIndex_range idx (Poly.count st) ltac:(lia)). lia. }
  clearbody seed. subst seed.
  pose proof (Poly_rollTo_anim_end idx now st dirs Hd Hne) as Ha. fold rolled in Ha.
  match type of Ha with _ = Some ?x => set (a := x) in * end.
  assert (Hdur : 0 < Poly.dur a) by (simpl; unfold Poly.DURATION_MS; lra).
  destruct (Poly_renders_complete ts rolled a Ha Hdur Hex) as (Hn & Hr).
  fold done in Hn, Hr.
  assert (Ht : unitV (targetDir idx dirs)).
  { apply unitV_length. rewrite Forall_forall in Hu. apply Hu. now apply targetDir_In. }
  assert (Hq : unitQ (Poly.rotQ st)) by apply Hv.
  destruct (end_orientation_faces_viewer (targetDir idx dirs) (Poly.rotQ st) Ht Hq)
    as (Hdist & Hexact).
  assert (Hrot : Poly.rot done = Matrix3.fromQuaternion (Poly.rotQ done)).
  { apply (renders_polyhedronState ts rolled).
    now apply rollTo_polyhedronState. }
  split; [exact Hn|]. split; [exists a; now split|].
  split; [intros ts'; now apply Poly_renders_idle|].
  rewrite Hrot, mulMV_fromQuaternion, Hr.
  split; [exact Hdist|]. split; [exact Hdist|exact Hexact].
Qed.

(** C2 on the scenario of the specification: the booted thirteen-faced die,
    [rollTo(0)] at time 0 from the identity orientation, frames at 450 and
    900 ms. *)
Lemma completed_roll_faces_viewer_witness :
  let done := Poly.renders [450; 900] (Poly.rollTo 0 0 d13) in
  Poly.anim done = None
  /\ dist2 (Vector3.applyQuaternion (nth 0 (fibonacciSeeds 13) vec3_zero) (Poly.rotQ done))
           Poly.zWorld <= 2 * EPSILON
  /\ Poly.result done = "Result: 1 / d13"%string.
Proof.
  destruct (completed_roll_faces_viewer 0 0 [450; 900] d13)
    as (H1 & _ & _ & H4 & _).
  - exact d13_polyhedronState.
  - apply Exists_cons_tl, Exists_cons_hd. unfold Poly.DURATION_MS. lra.
  - split; [exact H1|]. split; [exact H4|].
    rewrite (Poly_readout_held 0 0 [450; 900] d13 (fibonacciSeeds 13));
      [reflexivity|reflexivity|discriminate].
Defined.
